(** * ScribeAI: the session streaming coordinator, embedded and verified

    The development follows [src/server/index.ts] (the socket handlers and
    the [AudioProcessor] class that the server imports) and the two
    collaborator entry points of [src/lib/gemini.ts] that decide what a
    transcript fragment looks like.

    Conventions of the embedding
    - an [ArrayBuffer] is the list of its bytes, [byteLength] its length;
    - a JavaScript number that only ever holds a byte count, an offset, a
      timestamp or a duration is an integer of [Z] (the sums that occur stay
      far below 2^53, where doubles are exact);
    - a JavaScript string is a [string]; an optional property is an [option];
      truthiness tests ([x ? a : b], [x && y], [x || y]) are written out;
    - a method of the class is a function from the object's state to a
      result and the next state;
    - a socket handler runs to completion on a [World]: the two process-wide
      maps, the persisted records and the log of emitted events.  What an
      awaited collaborator answers is an input of the handler ([Env]). *)

From Stdlib Require Import ZArith Ascii Lia DecimalString.
From Stdlib.Strings Require Import Byte.
From stdpp Require Import base gmap strings list.

Local Open Scope Z_scope.

(** ** The audio buffer ([class AudioProcessor]) *)

Module AudioProcessor.

Abbreviation ArrayBuffer := (list byte).

Definition byteLength (chunk : ArrayBuffer) : Z := Z.of_nat (length chunk).

(** The two mutable fields; [chunkDuration] is never read. *)
Record t : Type := mk {
  chunks : list ArrayBuffer;
  currentBufferSize : Z;
}.

Definition maxBufferSize : Z := 10 * 1024 * 1024.

(** [new AudioProcessor()] *)
Definition create : t := {| chunks := []; currentBufferSize := 0 |}.

(** [array.splice(0, n)]: the removed prefix and what stays in the array. *)
Definition splice0 {A : Type} (n : nat) (l : list A) : list A * list A :=
  (take n l, drop n l).

(** [cs.reduce((sum, chunk) => sum + chunk.byteLength, 0)] *)
Definition sumByteLength (cs : list ArrayBuffer) : Z :=
  fold_left (fun sum chunk => sum + byteLength chunk) cs 0.

Definition clearOldestChunks (p : t) : t :=
  let halfSize := (length (chunks p) / 2)%nat in
  let '(removedChunks, kept) := splice0 halfSize (chunks p) in
  let removedSize := sumByteLength removedChunks in
  {| chunks := kept; currentBufferSize := currentBufferSize p - removedSize |}.

Definition addChunk (chunk : ArrayBuffer) (p : t) : bool * t :=
  let chunkSize := byteLength chunk in
  let p1 :=
    if currentBufferSize p + chunkSize >? maxBufferSize
    then clearOldestChunks p
    else p in
  (true, {| chunks := chunks p1 ++ [chunk];
            currentBufferSize := currentBufferSize p1 + chunkSize |}).

Definition clear (p : t) : t := {| chunks := []; currentBufferSize := 0 |}.

Definition getAndClearChunks (p : t) : list ArrayBuffer * t :=
  let copy := chunks p in
  (copy, clear p).

Definition getBufferSize (p : t) : Z := currentBufferSize p.

Definition getChunkCount (p : t) : nat := length (chunks p).

(** *** [static mergeChunks] *)

(** [new Uint8Array(n)]: [n] zero bytes. *)
Definition newUint8Array (n : Z) : list byte := repeat x00 (Z.to_nat n).

(** [target.set(source, offset)]: overwrites [source.length] cells from
    [offset] on; a source that does not fit raises a [RangeError]. *)
Definition typedArraySet (target source : list byte) (offset : Z)
  : option (list byte) :=
  if decide (0 <= offset /\ offset + byteLength source <= byteLength target)
  then Some (take (Z.to_nat offset) target ++ source
               ++ drop (Z.to_nat offset + length source) target)
  else None.

(** The [for (const chunk of chunks)] loop, on the pair (merged, offset). *)
Fixpoint mergeLoop (cs : list ArrayBuffer) (merged : list byte) (offset : Z)
  : option (list byte) :=
  match cs with
  | [] => Some merged
  | chunk :: rest =>
      match typedArraySet merged chunk offset with
      | Some merged' => mergeLoop rest merged' (offset + byteLength chunk)
      | None => None
      end
  end.

Definition mergeChunks (cs : list ArrayBuffer) : option ArrayBuffer :=
  let totalLength := sumByteLength cs in
  mergeLoop cs (newUint8Array totalLength) 0.

End AudioProcessor.

(** ** Strings as the server uses them *)

(** A string in a condition: only the empty string is falsy. *)
Definition truthy (s : string) : bool :=
  match s with
  | EmptyString => false
  | String _ _ => true
  end.

(** [hay.includes(needle)] *)
Fixpoint includes (needle hay : string) : bool :=
  String.prefix needle hay
  || match hay with
     | EmptyString => false
     | String _ hay' => includes needle hay'
     end.

(** [parts.join(sep)] on an array of strings. *)
Fixpoint join (sep : string) (parts : list string) : string :=
  match parts with
  | [] => ""
  | [x] => x
  | x :: rest => x +:+ sep +:+ join sep rest
  end.

Definition newline : string := String (ascii_of_nat 10) EmptyString.

(** The white space that [trim] removes, as far as single bytes go. *)
Definition isWhiteSpace (c : ascii) : bool :=
  let n := nat_of_ascii c in
  ((9 <=? n) && (n <=? 13) || (n =? 32))%nat.

Fixpoint trimStart (s : string) : string :=
  match s with
  | EmptyString => ""
  | String c s' => if isWhiteSpace c then trimStart s' else s
  end.

Fixpoint trimEnd (s : string) : string :=
  match s with
  | EmptyString => ""
  | String c s' =>
      match trimEnd s' with
      | EmptyString => if isWhiteSpace c then "" else String c ""
      | kept => String c kept
      end
  end.

Definition trim (s : string) : string := trimEnd (trimStart s).

(** A whole number in a template literal. *)
Definition numberToString (n : Z) : string := NilZero.string_of_int (Z.to_int n).

(** ** Transcript fragments ([src/lib/gemini.ts], [TranscriptChunk]) *)

Record TranscriptChunk : Type := {
  timestamp : Z;
  text : string;
  speaker : option string;
}.

Definition isDigit (c : ascii) : bool :=
  let n := nat_of_ascii c in ((48 <=? n) && (n <=? 57))%nat.

(** The longest run of digits at the head of [s], and what follows it. *)
Fixpoint spanDigits (s : string) : string * string :=
  match s with
  | EmptyString => ("", "")
  | String c s' =>
      if isDigit c
      then let '(ds, after) := spanDigits s' in (String c ds, after)
      else ("", s)
  end.

Fixpoint stripPrefix (p s : string) : option string :=
  match p, s with
  | EmptyString, _ => Some s
  | String a p', String b s' => if decide (a = b) then stripPrefix p' s' else None
  | String _ _, EmptyString => None
  end.

(** [text.match(/^(Speaker \d+):/)], group 1. *)
Definition extractSpeaker (raw : string) : option string :=
  match stripPrefix "Speaker " raw with
  | None => None
  | Some rest =>
      match spanDigits rest with
      | (String d ds, String ":" _) => Some ("Speaker " +:+ String d ds)
      | _ => None
      end
  end.

(** *** Flattening, as the stop handler does it *)

(** [`${c.speaker ? c.speaker + ": " : ""}${c.text}`] *)
Definition renderChunk (c : TranscriptChunk) : string :=
  (match speaker c with
   | Some s => if truthy s then s +:+ ": " else ""
   | None => ""
   end) +:+ text c.

Definition flatten (chunks : list TranscriptChunk) : string :=
  join newline (renderChunk <$> chunks).

(** ** Persisted records and the persistence collaborator *)

Inductive SessionStatus : Type :=
  | IDLE | RECORDING | PAUSED | PROCESSING | COMPLETED | ERROR.

Global Instance SessionStatus_eq_dec : EqDecision SessionStatus.
Proof. solve_decision. Defined.

Module Session.
(** [duration] is [None] until the server writes it (the column keeps
    whatever default the schema gives it). *)
Record t : Type := mk {
  userId : string;
  audioSource : string;
  status : SessionStatus;
  title : string;
  duration : option Z;
}.

(** The [data] of [prisma.session.update]: only the listed columns change. *)
Record patch : Type := mkPatch {
  setStatus : option SessionStatus;
  setDuration : option Z;
}.

Definition apply (d : patch) (r : t) : t :=
  {| userId := userId r;
     audioSource := audioSource r;
     status := default (status r) (setStatus d);
     title := title r;
     duration := match setDuration d with Some x => Some x | None => duration r end |}.
End Session.

Module Transcript.
Record t : Type := mk {
  sessionId : string;
  content : string;
  chunks : list TranscriptChunk;
}.
End Transcript.

Record MeetingSummary : Type := {
  content : string;
  keyPoints : list string;
  actionItems : list string;
  decisions : list string;
}.

Module Summary.
Record t : Type := mk {
  sessionId : string;
  body : MeetingSummary;
}.
End Summary.

Record Database : Type := {
  sessions : gmap string Session.t;
  transcripts : list Transcript.t;
  summaries : list Summary.t;
}.

(** The places where [index.ts] awaits the persistence collaborator. *)
Inductive DbCall : Type :=
  | CreateSession
  | UpdateDuration
  | UpdatePaused
  | UpdateRecording
  | UpdateProcessing
  | CreateTranscript
  | CreateSummary
  | UpdateCompleted
  | UpdateError.

(** ** Events *)

Inductive Payload : Type :=
  | SessionCreated (sessionId : string)
  | TranscriptionUpdate (sessionId : string) (chunk : TranscriptChunk)
  | StatusUpdate (sessionId : string) (status : SessionStatus)
  | ProcessingComplete (sessionId downloadUrl : string)
  | Error (message : string).

(** [socket.emit] reaches the originating connection only, [io.to(room).emit]
    every connection that joined the room. *)
Inductive Target : Type :=
  | ToSocket
  | ToRoom (room : string).

Definition isError (e : Target * Payload) : bool :=
  match e with
  | (_, Error _) => true
  | _ => false
  end.

(** ** The world a handler runs in *)

Record World : Type := {
  sessionProcessors : gmap string AudioProcessor.t;
  sessionTranscripts : gmap string (list TranscriptChunk);
  db : Database;
  joined : list string;
  emitted : list (Target * Payload);
}.

(** What the Gemini client did for one transcription call: the model answered
    with a text, or something threw (with its message, if it has one). *)
Inductive GeminiReply : Type :=
  | Replied (answer : string)
  | Failed (message : option string).

(** What the collaborators answer during one handler run. *)
Record Env : Type := {
  (** the persistence collaborator rejects this call (connection lost,
      constraint violated, ...) *)
  rejects : DbCall -> bool;
  (** the identifier and the title the new session record gets *)
  generatedId : string;
  generatedTitle : string;
  (** [process.env.GEMINI_API_KEY] is set *)
  apiKey : bool;
  (** the transcription call, when the key is set *)
  transcription : GeminiReply;
  (** the summary parsed from the model's answer; [None] when the call or
      the parsing threw *)
  summarize : string -> option MeetingSummary;
}.

(** *** Handler code: state, and exceptions that [try]/[catch] can stop *)

Inductive Outcome (A : Type) : Type :=
  | Returned (a : A)
  | Thrown.
Arguments Returned {A} a.
Arguments Thrown {A}.

Definition Handler (A : Type) : Type := World -> Outcome A * World.

Global Instance Handler_ret : MRet Handler := fun A a w => (Returned a, w).

Global Instance Handler_bind : MBind Handler := fun A B k m w =>
  match m w with
  | (Returned a, w') => k a w'
  | (Thrown, w') => (Thrown, w')
  end.

Definition throw {A : Type} : Handler A := fun w => (Thrown, w).

(** [try { body } catch (error) { handler }]: what [body] did before it
    threw stays done. *)
Definition try_catch (body handler : Handler unit) : Handler unit := fun w =>
  match body w with
  | (Returned tt, w') => (Returned tt, w')
  | (Thrown, w') => handler w'
  end.

Definition gets {A : Type} (f : World -> A) : Handler A := fun w => (Returned (f w), w).

Definition modify (f : World -> World) : Handler unit := fun w => (Returned tt, f w).

Definition emit (to : Target) (p : Payload) : Handler unit :=
  modify (fun w =>
    {| sessionProcessors := sessionProcessors w;
       sessionTranscripts := sessionTranscripts w;
       db := db w;
       joined := joined w;
       emitted := emitted w ++ [(to, p)] |}).

Definition setProcessors (f : gmap string AudioProcessor.t -> gmap string AudioProcessor.t)
  : Handler unit :=
  modify (fun w =>
    {| sessionProcessors := f (sessionProcessors w);
       sessionTranscripts := sessionTranscripts w;
       db := db w;
       joined := joined w;
       emitted := emitted w |}).

Definition setTranscripts
    (f : gmap string (list TranscriptChunk) -> gmap string (list TranscriptChunk))
  : Handler unit :=
  modify (fun w =>
    {| sessionProcessors := sessionProcessors w;
       sessionTranscripts := f (sessionTranscripts w);
       db := db w;
       joined := joined w;
       emitted := emitted w |}).

Definition setDb (f : Database -> Database) : Handler unit :=
  modify (fun w =>
    {| sessionProcessors := sessionProcessors w;
       sessionTranscripts := sessionTranscripts w;
       db := f (db w);
       joined := joined w;
       emitted := emitted w |}).

(** [socket.join(room)] *)
Definition join_room (room : string) : Handler unit :=
  modify (fun w =>
    {| sessionProcessors := sessionProcessors w;
       sessionTranscripts := sessionTranscripts w;
       db := db w;
       joined := joined w ++ [room];
       emitted := emitted w |}).

(** *** The persistence calls *)

Module prisma.

(** [prisma.session.create]: the record gets a fresh primary key. *)
Definition session_create (env : Env) (r : Session.t) : Handler string :=
  d ← gets db;
  if rejects env CreateSession then throw
  else match sessions d !! generatedId env with
       | Some _ => throw
       | None =>
           setDb (fun d => {| sessions := <[generatedId env := r]> (sessions d);
                              transcripts := transcripts d;
                              summaries := summaries d |});;
           mret (generatedId env)
       end.

(** [prisma.session.update({ where: { id }, data })]: rejects when no
    record has this id. *)
Definition session_update (env : Env) (call : DbCall) (id : string)
    (data : Session.patch) : Handler unit :=
  d ← gets db;
  if rejects env call then throw
  else match sessions d !! id with
       | None => throw
       | Some r =>
           setDb (fun d => {| sessions := <[id := Session.apply data r]> (sessions d);
                              transcripts := transcripts d;
                              summaries := summaries d |})
       end.

Definition transcript_create (env : Env) (r : Transcript.t) : Handler unit :=
  if rejects env CreateTranscript then throw
  else setDb (fun d => {| sessions := sessions d;
                          transcripts := transcripts d ++ [r];
                          summaries := summaries d |}).

Definition summary_create (env : Env) (r : Summary.t) : Handler unit :=
  if rejects env CreateSummary then throw
  else setDb (fun d => {| sessions := sessions d;
                          transcripts := transcripts d;
                          summaries := summaries d ++ [r] |}).

End prisma.

(** *** The Gemini collaborator ([src/lib/gemini.ts]) *)

(** [error.message || "Unknown error"] *)
Definition orElse (s : option string) (fallback : string) : string :=
  match s with
  | Some m => if truthy m then m else fallback
  | None => fallback
  end.

(** [transcribeAudioChunk] catches everything and always returns a fragment. *)
Definition transcribeAudioChunk (env : Env) (ts : Z) : TranscriptChunk :=
  if negb (apiKey env) then
    {| timestamp := ts;
       text := "[Mock transcription at " +:+ numberToString (ts / 1000)
               +:+ "s - Add GEMINI_API_KEY to .env for real transcription]";
       speaker := None |}
  else
    match transcription env with
    | Replied answer =>
        {| timestamp := ts; text := trim answer; speaker := extractSpeaker answer |}
    | Failed message =>
        {| timestamp := ts;
           text := "[Transcription error: " +:+ orElse message "Unknown error"
                   +:+ " - Gemini API may not support audio transcription. Consider using Google Cloud Speech-to-Text or OpenAI Whisper API]";
           speaker := None |}
    end.

(** [generateMeetingSummary] of [src/lib/gemini.ts]: a fixed summary without
    an API key, otherwise the parsed answer, and every failure rethrown. *)
Definition mockSummary : MeetingSummary :=
  {| content := "Mock summary - Add GEMINI_API_KEY to .env for real AI summaries";
     keyPoints := ["Mock key point 1"; "Mock key point 2"];
     actionItems := ["Mock action item 1"];
     decisions := ["Mock decision 1"] |}.

Definition generateMeetingSummary (env : Env) (transcript : string)
  : Handler MeetingSummary :=
  if negb (apiKey env) then mret mockSummary
  else match summarize env transcript with
       | Some s => mret s
       | None => throw
       end.

(** ** The socket handlers ([io.on("connection", ...)]) *)

Record StartData : Type := { start_userId : string; start_audioSource : string }.

Record ChunkData : Type := {
  chunk_sessionId : string;
  chunk : AudioProcessor.ArrayBuffer;
  chunk_timestamp : Z;
}.

Record StopData : Type := {
  stop_sessionId : string;
  clientTranscript : option string;
  stop_duration : option Z;
}.

Definition start_recording (env : Env) (data : StartData) : Handler unit :=
  try_catch
    (id ← prisma.session_create env
            {| Session.userId := start_userId data;
               Session.audioSource := start_audioSource data;
               Session.status := RECORDING;
               Session.title := generatedTitle env;
               Session.duration := None |};
     setProcessors (insert id AudioProcessor.create);;
     setTranscripts (insert id []);;
     join_room id;;
     emit ToSocket (SessionCreated id))
    (emit ToSocket (Error "Failed to start recording")).

Definition audio_chunk (env : Env) (data : ChunkData) : Handler unit :=
  let sessionId := chunk_sessionId data in
  try_catch
    (processor ← gets (fun w => sessionProcessors w !! sessionId);
     match processor with
     | None => emit ToSocket (Error "Session not found")
     | Some processor =>
         setProcessors (insert sessionId (AudioProcessor.addChunk (chunk data) processor).2);;
         try_catch
           (let transcriptChunk := transcribeAudioChunk env (chunk_timestamp data) in
            chunks ← gets (fun w => default [] (sessionTranscripts w !! sessionId));
            setTranscripts (insert sessionId (chunks ++ [transcriptChunk]));;
            emit (ToRoom sessionId) (TranscriptionUpdate sessionId transcriptChunk);;
            prisma.session_update env UpdateDuration sessionId
              {| Session.setStatus := None;
                 Session.setDuration := Some (chunk_timestamp data / 1000) |})
           (mret tt)
     end)
    (emit ToSocket (Error "Failed to process audio chunk")).

Definition pause_recording (env : Env) (sessionId : string) : Handler unit :=
  try_catch
    (prisma.session_update env UpdatePaused sessionId
       {| Session.setStatus := Some PAUSED; Session.setDuration := None |};;
     emit (ToRoom sessionId) (StatusUpdate sessionId PAUSED))
    (emit ToSocket (Error "Failed to pause recording")).

Definition resume_recording (env : Env) (sessionId : string) : Handler unit :=
  try_catch
    (prisma.session_update env UpdateRecording sessionId
       {| Session.setStatus := Some RECORDING; Session.setDuration := None |};;
     emit (ToRoom sessionId) (StatusUpdate sessionId RECORDING))
    (emit ToSocket (Error "Failed to resume recording")).

(** The transcript text the stop handler settles on, before the final
    [|| "No transcript available"]. *)
Definition chooseTranscript (clientTranscript : option string) (flattened : string) : string :=
  match clientTranscript with
  | Some ct =>
      if truthy ct && (negb (truthy flattened) || includes "Mock transcription" flattened)
      then ct
      else flattened
  | None => flattened
  end.

(** [fullTranscript || "No transcript available"] *)
Definition transcriptContent (fullTranscript : string) : string :=
  if truthy fullTranscript then fullTranscript else "No transcript available".

(** [...(duration ? { duration } : {})] *)
Definition durationPatch (duration : option Z) : option Z :=
  match duration with
  | Some d => if decide (d = 0) then None else Some d
  | None => None
  end.

Definition stop_recording (env : Env) (data : StopData) : Handler unit :=
  let sessionId := stop_sessionId data in
  try_catch
    (prisma.session_update env UpdateProcessing sessionId
       {| Session.setStatus := Some PROCESSING; Session.setDuration := None |};;
     emit (ToRoom sessionId) (StatusUpdate sessionId PROCESSING);;
     chunks ← gets (fun w => default [] (sessionTranscripts w !! sessionId));
     let fullTranscript := chooseTranscript (clientTranscript data) (flatten chunks) in
     prisma.transcript_create env
       {| Transcript.sessionId := sessionId;
          Transcript.content := transcriptContent fullTranscript;
          Transcript.chunks := chunks |};;
     try_catch
       (summary ← generateMeetingSummary env fullTranscript;
        prisma.summary_create env {| Summary.sessionId := sessionId; Summary.body := summary |})
       (mret tt);;
     prisma.session_update env UpdateCompleted sessionId
       {| Session.setStatus := Some COMPLETED;
          Session.setDuration := durationPatch (stop_duration data) |};;
     setProcessors (delete sessionId);;
     setTranscripts (delete sessionId);;
     let downloadUrl := "/api/sessions/" +:+ sessionId +:+ "/download" in
     emit (ToRoom sessionId) (ProcessingComplete sessionId downloadUrl);;
     emit (ToRoom sessionId) (StatusUpdate sessionId COMPLETED))
    (emit ToSocket (Error "Failed to stop recording");;
     try_catch
       (prisma.session_update env UpdateError sessionId
          {| Session.setStatus := Some ERROR; Session.setDuration := None |})
       (mret tt)).

(** An inbound event and the handler the server registered for it. *)
Inductive Inbound : Type :=
  | StartRecording (data : StartData)
  | AudioChunk (data : ChunkData)
  | PauseRecording (sessionId : string)
  | ResumeRecording (sessionId : string)
  | StopRecording (data : StopData).

Definition handle (env : Env) (ev : Inbound) : Handler unit :=
  match ev with
  | StartRecording data => start_recording env data
  | AudioChunk data => audio_chunk env data
  | PauseRecording sessionId => pause_recording env sessionId
  | ResumeRecording sessionId => resume_recording env sessionId
  | StopRecording data => stop_recording env data
  end.

(** The session an event names in its payload. *)
Definition referenced (ev : Inbound) : option string :=
  match ev with
  | StartRecording _ => None
  | AudioChunk data => Some (chunk_sessionId data)
  | PauseRecording sessionId | ResumeRecording sessionId => Some sessionId
  | StopRecording data => Some (stop_sessionId data)
  end.

(** The server right after it started listening. *)
Definition initialWorld : World :=
  {| sessionProcessors := ∅;
     sessionTranscripts := ∅;
     db := {| sessions := ∅; transcripts := []; summaries := [] |};
     joined := [];
     emitted := [] |}.

(** Events handled one after the other, each with its own collaborator answers. *)
Fixpoint serve (evs : list (Env * Inbound)) (w : World) : World :=
  match evs with
  | [] => w
  | (env, ev) :: rest => serve rest (handle env ev w).2
  end.

(** ** Vocabulary of the properties *)

(** *** Sequences of buffer operations *)

Inductive BufferOp : Type :=
  | OpAddChunk (chunk : AudioProcessor.ArrayBuffer)
  | OpClear
  | OpGetAndClearChunks.

Definition applyOp (p : AudioProcessor.t) (op : BufferOp) : AudioProcessor.t :=
  match op with
  | OpAddChunk chunk => (AudioProcessor.addChunk chunk p).2
  | OpClear => AudioProcessor.clear p
  | OpGetAndClearChunks => (AudioProcessor.getAndClearChunks p).2
  end.

(** The buffer after the calls [ops], made in this order on a new buffer. *)
Definition runOps (ops : list BufferOp) : AudioProcessor.t :=
  foldl applyOp AudioProcessor.create ops.

(** The sum of the byte lengths of the chunks a buffer holds. *)
Definition heldBytes (p : AudioProcessor.t) : Z :=
  foldr (fun chunk sum => AudioProcessor.byteLength chunk + sum) 0 (AudioProcessor.chunks p).

(** The counter agrees with the contents, summed the way the class sums. *)
Definition consistent (p : AudioProcessor.t) : Prop :=
  AudioProcessor.currentBufferSize p
  = AudioProcessor.sumByteLength (AudioProcessor.chunks p).

(** Cutting a payload at the given fragment sizes, first fragment first. *)
Fixpoint splitAtBoundaries (sizes : list Z) (payload : list byte) : list (list byte) :=
  match sizes with
  | [] => []
  | n :: rest =>
      take (Z.to_nat n) payload :: splitAtBoundaries rest (drop (Z.to_nat n) payload)
  end.

(** *** The flattening rule in the words of the specification *)

Definition renderFragment_spec (c : TranscriptChunk) : string :=
  match speaker c with
  | Some label => label +:+ ": " +:+ text c
  | None => text c
  end.

Definition flatten_spec (chunks : list TranscriptChunk) : string :=
  join newline (renderFragment_spec <$> chunks).

(** *** The rule for the persisted transcript content *)

Definition nonEmpty (s : string) : bool := negb (String.eqb s "").

(** As the specification words it: the client's transcript as soon as one is
    provided and the flattened text is empty or carries the marker. *)
Definition content_spec (clientTranscript : option string) (flattened : string) : string :=
  match clientTranscript with
  | Some ct =>
      if negb (nonEmpty flattened) || includes "Mock transcription" flattened then ct
      else if nonEmpty flattened then flattened
      else "No transcript available"
  | None => if nonEmpty flattened then flattened else "No transcript available"
  end.

(** The same rule with "provided" read as "provided and not empty". *)
Definition content_amended (clientTranscript : option string) (flattened : string) : string :=
  match clientTranscript with
  | Some ct =>
      if nonEmpty ct && (negb (nonEmpty flattened) || includes "Mock transcription" flattened)
      then ct
      else if nonEmpty flattened then flattened
      else "No transcript available"
  | None => if nonEmpty flattened then flattened else "No transcript available"
  end.

(** A label that the template's truthiness test lets through. *)
Definition labelled (c : TranscriptChunk) : Prop := speaker c <> Some "".

(** Every accumulator of the registry holds such fragments only. *)
Definition accumulatorsLabelled (w : World) : Prop :=
  map_Forall (fun _ chunks => Forall labelled chunks) (sessionTranscripts w).

(** *** The stop handler's steps *)

(** The transcript text the handler summarizes and saves. *)
Definition fullTranscriptOf (w : World) (data : StopData) : string :=
  chooseTranscript (clientTranscript data)
    (flatten (default [] (sessionTranscripts w !! stop_sessionId data))).

(** What [generateMeetingSummary] returns, [None] when it throws. *)
Definition summaryOutcome (env : Env) (fullTranscript : string) : option MeetingSummary :=
  if negb (apiKey env) then Some mockSummary else summarize env fullTranscript.

(** The summary rows the inner [try] block adds. *)
Definition savedSummary (env : Env) (id fullTranscript : string) : list Summary.t :=
  match summaryOutcome env fullTranscript with
  | Some s =>
      if rejects env CreateSummary then []
      else [ {| Summary.sessionId := id; Summary.body := s |} ]
  | None => []
  end.

(** The summarization call fails, or saving its result does. *)
Definition summaryStepFails (env : Env) (fullTranscript : string) : Prop :=
  summaryOutcome env fullTranscript = None \/ rejects env CreateSummary = true.

(** The persistence calls on the way to [COMPLETED] are all answered. *)
Definition stopPersists (env : Env) : Prop :=
  rejects env UpdateProcessing = false
  /\ rejects env CreateTranscript = false
  /\ rejects env UpdateCompleted = false.

Definition withStatus (st : SessionStatus) (r : Session.t) : Session.t :=
  Session.apply {| Session.setStatus := Some st; Session.setDuration := None |} r.

(** The session record after a stop that ran to its end. *)
Definition completedRecord (duration : option Z) (r : Session.t) : Session.t :=
  Session.apply {| Session.setStatus := Some COMPLETED;
                   Session.setDuration := durationPatch duration |}
                (withStatus PROCESSING r).

Definition transcriptRow (w : World) (data : StopData) : Transcript.t :=
  {| Transcript.sessionId := stop_sessionId data;
     Transcript.content := transcriptContent (fullTranscriptOf w data);
     Transcript.chunks := default [] (sessionTranscripts w !! stop_sessionId data) |}.

(** The world after further events were emitted and nothing else changed. *)
Definition afterEmit (w : World) (es : list (Target * Payload)) : World :=
  {| sessionProcessors := sessionProcessors w;
     sessionTranscripts := sessionTranscripts w;
     db := db w;
     joined := joined w;
     emitted := emitted w ++ es |}.

(** The world after the session record [id] was replaced by [r]. *)
Definition withSession (id : string) (r : Session.t) (w : World) : World :=
  {| sessionProcessors := sessionProcessors w;
     sessionTranscripts := sessionTranscripts w;
     db := {| sessions := <[id := r]> (sessions (db w));
              transcripts := transcripts (db w);
              summaries := summaries (db w) |};
     joined := joined w;
     emitted := emitted w |}.

Definition isAudioChunk (ev : Inbound) : bool :=
  match ev with
  | AudioChunk _ => true
  | _ => false
  end.

(** The message of the [error] event a handler sends for a session it
    cannot find. *)
Definition unknownSessionMessage (ev : Inbound) : string :=
  match ev with
  | StartRecording _ => "Failed to start recording"
  | AudioChunk _ => "Session not found"
  | PauseRecording _ => "Failed to pause recording"
  | ResumeRecording _ => "Failed to resume recording"
  | StopRecording _ => "Failed to stop recording"
  end.

(** *** Concrete collaborators and sessions used in examples *)

(** Every persistence call is answered, no API key is configured. *)
Definition calmEnv (id : string) : Env :=
  {| rejects := fun _ => false;
     generatedId := id;
     generatedTitle := "Recording";
     apiKey := false;
     transcription := Failed None;
     summarize := fun _ => None |}.

(** The key is configured and the summarization call throws. *)
Definition noSummaryEnv (id : string) : Env :=
  {| rejects := fun _ => false;
     generatedId := id;
     generatedTitle := "Recording";
     apiKey := true;
     transcription := Failed None;
     summarize := fun _ => None |}.

Definition startMic : StartData :=
  {| start_userId := "demo-user-id"; start_audioSource := "microphone" |}.

Definition stopOf (id : string) (ct : option string) (d : option Z) : StopData :=
  {| stop_sessionId := id; clientTranscript := ct; stop_duration := d |}.

(** A session that was just started. *)
Definition startedWorld : World :=
  serve [ (calmEnv "s1", StartRecording startMic) ] initialWorld.

(** A session that was started and stopped: its record is persisted, its
    registry entry is gone. *)
Definition finishedWorld : World :=
  serve [ (calmEnv "s1", StartRecording startMic);
          (calmEnv "s1", StopRecording (stopOf "s1" None None)) ] initialWorld.

(** A session that received one audio chunk stamped 5000 ms. *)
Definition streamingWorld : World :=
  serve [ (calmEnv "s1", StartRecording startMic);
          (calmEnv "s1", AudioChunk {| chunk_sessionId := "s1";
                                        chunk := [x52; x49; x46; x46];
                                        chunk_timestamp := 5000 |}) ] initialWorld.

(** An audio chunk of six million zero bytes ([new ArrayBuffer(6000000)]). *)
Definition sixMegabytes : AudioProcessor.ArrayBuffer :=
  AudioProcessor.newUint8Array 6000000.

(** ** Further code and vocabulary *)

(** The chunks passed to [addChunk] in a sequence of calls, in call order. *)
Fixpoint addedChunks (ops : list BufferOp) : list AudioProcessor.ArrayBuffer :=
  match ops with
  | [] => []
  | OpAddChunk chunk :: rest => chunk :: addedChunks rest
  | _ :: rest => addedChunks rest
  end.

(** *** More of [src/lib/gemini.ts] *)






(** Strings of decimal digits. *)
Fixpoint allDigits (s : string) : bool :=
  match s with
  | EmptyString => true
  | String c s' => isDigit c && allDigits s'
  end.

(** The string does not start with a decimal digit. *)
Definition headIsDigitFree (s : string) : Prop :=
  match s with
  | EmptyString => True
  | String c _ => isDigit c = false
  end.

Definition headIsSpace (s : string) : bool :=
  match s with
  | EmptyString => false
  | String c _ => isWhiteSpace c
  end.

Fixpoint lastIsSpace (s : string) : bool :=
  match s with
  | EmptyString => false
  | String c EmptyString => isWhiteSpace c
  | String _ s' => lastIsSpace s'
  end.

(** *** Scope of events, and what a handler run may touch *)

(** [session-created] and [error] go to the calling socket, every other event
    to the room of the session it is about. *)
Definition wellScoped (e : Target * Payload) : Prop :=
  match e with
  | (to, SessionCreated _) | (to, Error _) => to = ToSocket
  | (to, TranscriptionUpdate id _)
  | (to, StatusUpdate id _)
  | (to, ProcessingComplete id _) => to = ToRoom id
  end.

(** The session a handler run is about: the one its payload names, or the
    one it creates. *)
Definition touched (env : Env) (ev : Inbound) : string :=
  default (generatedId env) (referenced ev).

(** Buffer and accumulator come in pairs, each pair belongs to a persisted
    session, and each buffer's counter agrees with its contents. *)
Definition paired {A B : Type} (P : gmap string A) (T : gmap string B) : Prop :=
  forall id : string, P !! id = None <-> T !! id = None.

Definition within {A B : Type} (P : gmap string A) (S : gmap string B) : Prop :=
  forall id : string, is_Some (P !! id) -> is_Some (S !! id).

Definition registryPaired (w : World) : Prop :=
  paired (sessionProcessors w) (sessionTranscripts w).

Definition registryPersisted (w : World) : Prop :=
  within (sessionProcessors w) (sessions (db w)).

Definition buffersConsistent (w : World) : Prop :=
  map_Forall (fun _ p => consistent p) (sessionProcessors w).

Definition registryInvariant (w : World) : Prop :=
  registryPaired w /\ registryPersisted w /\ buffersConsistent w.

(** *** The stop button of the client ([RecordingInterface]) *)

(** [speechRecognition.transcriptChunks.map(c => c.text).join("\n")], passed
    on as [fullTranscript || undefined]. *)
Definition clientStopTranscript (speech : list TranscriptChunk) : option string :=
  let fullTranscript := join newline (text <$> speech) in
  if truthy fullTranscript then Some fullTranscript else None.

(** * Properties of the audio buffer *)

Module AudioProcessorProofs.
Import AudioProcessor.

Lemma byteLength_nonneg (c : ArrayBuffer) : 0 <= byteLength c.
Proof. unfold byteLength. lia. Qed.

Lemma to_nat_byteLength (c : ArrayBuffer) : Z.to_nat (byteLength c) = length c.
Proof. unfold byteLength. apply Nat2Z.id. Qed.

Lemma byteLength_app (a b : ArrayBuffer) :
  byteLength (a ++ b) = byteLength a + byteLength b.
Proof. unfold byteLength. rewrite length_app. lia. Qed.

Lemma byteLength_newUint8Array (n : Z) :
  0 <= n -> byteLength (newUint8Array n) = n.
Proof.
  intros Hn. unfold byteLength, newUint8Array.
  rewrite repeat_length. lia.
Qed.

(** The [reduce] of the source, started from any accumulator. *)
Lemma reduce_from (cs : list ArrayBuffer) (acc : Z) :
  fold_left (fun sum chunk => sum + byteLength chunk) cs acc
  = acc + sumByteLength cs.
Proof.
  unfold sumByteLength. revert acc.
  induction cs as [|c cs IH]; intros acc; simpl.
  - lia.
  - rewrite IH, (IH (0 + byteLength c)). lia.
Qed.

Lemma sumByteLength_nil : sumByteLength [] = 0.
Proof. reflexivity. Qed.

Lemma sumByteLength_cons (c : ArrayBuffer) (cs : list ArrayBuffer) :
  sumByteLength (c :: cs) = byteLength c + sumByteLength cs.
Proof. unfold sumByteLength at 1. simpl. rewrite reduce_from. lia. Qed.

Lemma sumByteLength_app (xs ys : list ArrayBuffer) :
  sumByteLength (xs ++ ys) = sumByteLength xs + sumByteLength ys.
Proof.
  induction xs as [|x xs IH]; simpl.
  - rewrite sumByteLength_nil. lia.
  - rewrite !sumByteLength_cons, IH. lia.
Qed.

Lemma sumByteLength_split (k : nat) (cs : list ArrayBuffer) :
  sumByteLength (take k cs) + sumByteLength (drop k cs) = sumByteLength cs.
Proof. rewrite <- sumByteLength_app, take_drop. reflexivity. Qed.

Lemma sumByteLength_concat (cs : list ArrayBuffer) :
  byteLength (concat cs) = sumByteLength cs.
Proof.
  induction cs as [|c cs IH]; simpl.
  - reflexivity.
  - rewrite byteLength_app, sumByteLength_cons, IH. reflexivity.
Qed.

Lemma heldBytes_sum (p : t) : heldBytes p = sumByteLength (chunks p).
Proof.
  unfold heldBytes. induction (chunks p) as [|c cs IH]; simpl.
  - reflexivity.
  - rewrite sumByteLength_cons, IH. reflexivity.
Qed.

Lemma create_consistent : consistent create.
Proof. reflexivity. Qed.

Lemma clear_consistent (p : t) : consistent (clear p).
Proof. reflexivity. Qed.

Lemma clearOldestChunks_consistent (p : t) :
  consistent p -> consistent (clearOldestChunks p).
Proof.
  unfold consistent, clearOldestChunks, splice0. cbn [chunks currentBufferSize].
  intros ->.
  pose proof (sumByteLength_split (length (chunks p) / 2) (chunks p)). lia.
Qed.

Lemma addChunk_consistent (c : ArrayBuffer) (p : t) :
  consistent p -> consistent (addChunk c p).2.
Proof.
  intros Hp. unfold addChunk. cbn [snd].
  destruct (currentBufferSize p + byteLength c >? maxBufferSize).
  - apply clearOldestChunks_consistent in Hp. unfold consistent in *. cbn [chunks currentBufferSize].
    rewrite sumByteLength_app, sumByteLength_cons, sumByteLength_nil, Hp. lia.
  - unfold consistent in *. cbn [chunks currentBufferSize].
    rewrite sumByteLength_app, sumByteLength_cons, sumByteLength_nil, Hp. lia.
Qed.

Lemma applyOp_consistent (p : t) (op : BufferOp) :
  consistent p -> consistent (applyOp p op).
Proof.
  destruct op; simpl; intros Hp.
  - apply addChunk_consistent, Hp.
  - apply clear_consistent.
  - apply clear_consistent.
Qed.

Lemma foldl_applyOp_consistent (ops : list BufferOp) (p : t) :
  consistent p -> consistent (foldl applyOp p ops).
Proof.
  revert p. induction ops as [|op ops IH]; intros p Hp; simpl.
  - exact Hp.
  - apply IH, applyOp_consistent, Hp.
Qed.

(** C10. After any sequence of [addChunk], [clear] and [getAndClearChunks]
    calls on a new buffer, [getBufferSize] is the sum of the byte lengths
    of the chunks the buffer holds and [getChunkCount] is their number:
    the counter does not drift, evictions included. *)
Theorem counter_matches_contents (ops : list BufferOp) :
  getBufferSize (runOps ops) = heldBytes (runOps ops)
  /\ getChunkCount (runOps ops) = length (chunks (runOps ops)).
Proof.
  split; [|reflexivity].
  rewrite heldBytes_sum. unfold getBufferSize, runOps.
  apply foldl_applyOp_consistent, create_consistent.
Qed.

(** *** Overflow handling *)

Lemma addChunk_overflow (c : ArrayBuffer) (p : t) :
  currentBufferSize p + byteLength c > maxBufferSize ->
  addChunk c p
  = (true, {| chunks := drop (length (chunks p) / 2) (chunks p) ++ [c];
              currentBufferSize :=
                currentBufferSize p
                - sumByteLength (take (length (chunks p) / 2) (chunks p))
                + byteLength c |}).
Proof.
  intros Hover. unfold addChunk.
  replace (currentBufferSize p + byteLength c >? maxBufferSize) with true
    by (symmetry; apply Z.gtb_lt; lia).
  reflexivity.
Qed.

Lemma addChunk_fits (c : ArrayBuffer) (p : t) :
  currentBufferSize p + byteLength c <= maxBufferSize ->
  addChunk c p
  = (true, {| chunks := chunks p ++ [c];
              currentBufferSize := currentBufferSize p + byteLength c |}).
Proof.
  intros Hfit. unfold addChunk.
  replace (currentBufferSize p + byteLength c >? maxBufferSize) with false
    by (symmetry; rewrite Z.gtb_ltb; apply Z.ltb_ge; lia).
  reflexivity.
Qed.

(** C4. [addChunk] always answers [true].  When the counter plus the new
    chunk's length exceeds the ceiling, the call removes the first
    [floor(n/2)] chunks, [n] being the number held when the call starts,
    keeps the others in order and appends the new chunk after them. *)
Theorem overflow_evicts_oldest_half :
  (forall (c : ArrayBuffer) (p : t), (addChunk c p).1 = true)
  /\ (forall (c : ArrayBuffer) (p : t),
        getBufferSize p + byteLength c > maxBufferSize ->
        let n := getChunkCount p in
        let evicted := take (n / 2) (chunks p) in
        let p' := (addChunk c p).2 in
        chunks p = evicted ++ drop (n / 2) (chunks p)
        /\ length evicted = (n / 2)%nat
        /\ chunks p' = drop (n / 2) (chunks p) ++ [c]
        /\ getChunkCount p' = (n - n / 2 + 1)%nat).
Proof.
  split; [reflexivity|].
  intros c p Hover n evicted p'.
  assert (Hhalf : (n / 2 <= n)%nat) by (apply Nat.Div0.div_le_upper_bound; lia).
  subst p'. rewrite (addChunk_overflow c p Hover). cbn [snd chunks].
  unfold getChunkCount in *. cbn [chunks]. fold n.
  repeat split.
  - subst evicted. symmetry. apply take_drop.
  - subst evicted. apply length_take_le. exact Hhalf.
  - rewrite length_app, length_drop. fold n. simpl. lia.
Qed.

(** Two chunks of six million bytes each. *)
Lemma byteLength_sixMegabytes : byteLength sixMegabytes = 6000000.
Proof. apply byteLength_newUint8Array. lia. Qed.

Lemma two_large_chunks :
  (addChunk sixMegabytes (addChunk sixMegabytes create).2).2
  = {| chunks := [sixMegabytes; sixMegabytes]; currentBufferSize := 12000000 |}.
Proof.
  rewrite (addChunk_fits sixMegabytes create)
    by (rewrite byteLength_sixMegabytes; unfold maxBufferSize; simpl; lia).
  cbn [snd]. rewrite addChunk_overflow
    by (cbn [currentBufferSize create]; rewrite byteLength_sixMegabytes;
        unfold maxBufferSize; lia).
  cbn [snd chunks currentBufferSize create app length Nat.div].
  rewrite byteLength_sixMegabytes. reflexivity.
Qed.

(** C1. The bound fails on the code: a new buffer that receives two chunks
    of six million bytes (each below the transport limit of 10^7 bytes)
    reports 12 000 000 bytes, above the ceiling of 10 MiB.  The second
    call does take the overflow branch, but half of one chunk is no chunk. *)
Theorem two_chunks_exceed_ceiling :
  let ops := [OpAddChunk sixMegabytes; OpAddChunk sixMegabytes] in
  byteLength sixMegabytes <= 10000000
  /\ getBufferSize (runOps ops) = 12000000
  /\ getChunkCount (runOps ops) = 2%nat
  /\ maxBufferSize = 10485760
  /\ ~ getBufferSize (runOps ops) <= maxBufferSize.
Proof.
  intros ops. subst ops. unfold runOps. cbn [foldl applyOp].
  rewrite two_large_chunks. unfold getBufferSize, getChunkCount.
  cbn [currentBufferSize chunks length].
  rewrite byteLength_sixMegabytes.
  repeat split; [lia | unfold maxBufferSize; lia].
Qed.

Lemma overflow_evicts_oldest_half_witness :
  let p := (addChunk sixMegabytes (addChunk sixMegabytes create).2).2 in
  getBufferSize p + byteLength [x01] > maxBufferSize
  /\ (addChunk [x01] p).1 = true
  /\ chunks (addChunk [x01] p).2 = [sixMegabytes; [x01]].
Proof.
  intros p. subst p. rewrite two_large_chunks.
  assert (Hover : getBufferSize {| chunks := [sixMegabytes; sixMegabytes];
                                   currentBufferSize := 12000000 |}
                  + byteLength [x01] > maxBufferSize)
    by (unfold getBufferSize, maxBufferSize, byteLength; simpl; lia).
  split; [exact Hover|]. split; [reflexivity|].
  destruct (proj2 overflow_evicts_oldest_half [x01] _ Hover) as (_ & _ & Hkept & _).
  rewrite Hkept. reflexivity.
Defined.

(** *** Merging *)

Lemma typedArraySet_at_end (pre tail src : list byte) :
  byteLength src <= byteLength tail ->
  typedArraySet (pre ++ tail) src (byteLength pre)
  = Some ((pre ++ src) ++ drop (length src) tail).
Proof.
  intros Hfit. unfold typedArraySet.
  destruct (decide _) as [_|Hno].
  - rewrite to_nat_byteLength, take_app_length, drop_app_add'; [|reflexivity].
    rewrite <- app_assoc. reflexivity.
  - exfalso. apply Hno. rewrite byteLength_app.
    pose proof (byteLength_nonneg pre). lia.
Qed.

(** The loop, started when [pre] is already written and [tail] is still
    zero: it fills exactly the tail. *)
Lemma mergeLoop_fills (cs : list ArrayBuffer) :
  forall pre tail : list byte,
    byteLength tail = sumByteLength cs ->
    mergeLoop cs (pre ++ tail) (byteLength pre) = Some (pre ++ concat cs).
Proof.
  induction cs as [|c cs IH]; intros pre tail Hlen.
  - rewrite sumByteLength_nil in Hlen. unfold byteLength in Hlen.
    destruct tail; [|simpl in Hlen; lia]. reflexivity.
  - rewrite sumByteLength_cons in Hlen. cbn [mergeLoop].
    pose proof (sumByteLength_concat cs) as Hcat.
    pose proof (byteLength_nonneg (concat cs)).
    rewrite typedArraySet_at_end by lia.
    rewrite <- byteLength_app. rewrite IH.
    + cbn [concat]. rewrite <- app_assoc. reflexivity.
    + unfold byteLength in *. rewrite length_drop. lia.
Qed.

Lemma splitAtBoundaries_concat (cs : list ArrayBuffer) :
  splitAtBoundaries (byteLength <$> cs) (concat cs) = cs.
Proof.
  induction cs as [|c cs IH]; [reflexivity|].
  cbn [fmap list_fmap concat splitAtBoundaries].
  rewrite to_nat_byteLength, take_app_length, drop_app_length.
  f_equal. exact IH.
Qed.

(** C8. For every list of fragments [mergeChunks] returns a payload (no
    write falls outside the target array); its byte length is the sum of
    the fragments' byte lengths, its bytes are the fragments' bytes in
    input order, and cutting it at the fragment sizes gives the fragments
    back.  The function is static: it takes the list and nothing else. *)
Theorem mergeChunks_concatenates (cs : list ArrayBuffer) :
  exists merged : ArrayBuffer,
    mergeChunks cs = Some merged
    /\ byteLength merged = foldr (fun c sum => byteLength c + sum) 0 cs
    /\ merged = concat cs
    /\ splitAtBoundaries (byteLength <$> cs) merged = cs.
Proof.
  exists (concat cs). repeat split.
  - unfold mergeChunks.
    pose proof (byteLength_nonneg (concat cs)) as Hnn.
    rewrite sumByteLength_concat in Hnn.
    apply (mergeLoop_fills cs [] (newUint8Array (sumByteLength cs))).
    apply byteLength_newUint8Array, Hnn.
  - induction cs as [|c cs IH]; [reflexivity|].
    cbn [concat foldr]. rewrite byteLength_app, IH. reflexivity.
  - apply splitAtBoundaries_concat.
Qed.
End AudioProcessorProofs.

(** * Proof steps for handler code *)

Ltac run_handler :=
  unfold start_recording, audio_chunk, pause_recording, resume_recording,
    stop_recording, try_catch, prisma.session_create, prisma.session_update,
    prisma.transcript_create, prisma.summary_create, generateMeetingSummary,
    emit, join_room, setProcessors, setTranscripts, setDb, gets, modify, throw,
    mbind, mret, Handler_bind, Handler_ret.

(** One more collaborator answer, or one more lookup of a record just written. *)
Ltac step :=
  first
    [ rewrite lookup_insert_eq
    | match goal with
      | H : sessions (db _) !! _ = _ |- _ => rewrite H
      | |- context [rejects ?e ?c] => destruct (rejects e c)
      | |- context [apiKey ?e] => destruct (apiKey e)
      | |- context [summarize ?e ?t] => destruct (summarize e t)
      end ]; cbn.

(** * Properties of the transcript text *)

Section Strings.

Lemma append_assoc (a b c : string) : (a +:+ b) +:+ c = a +:+ b +:+ c.
Proof.
  induction a as [|x a IH]; [reflexivity|].
  change (String x ((a +:+ b) +:+ c) = String x (a +:+ b +:+ c)).
  f_equal. exact IH.
Qed.

Lemma truthy_nonEmpty (s : string) : truthy s = nonEmpty s.
Proof. destruct s; reflexivity. Qed.

End Strings.

Section Flattening.

Lemma renderChunk_spec (c : TranscriptChunk) :
  labelled c -> renderChunk c = renderFragment_spec c.
Proof.
  unfold labelled, renderChunk, renderFragment_spec.
  destruct (speaker c) as [[|x label]|]; intros Hlabel.
  - congruence.
  - cbn [truthy]. apply append_assoc.
  - reflexivity.
Qed.

(** The speaker label that [extractSpeaker] finds is never the empty string. *)
Lemma extractSpeaker_truthy (raw : string) : extractSpeaker raw <> Some "".
Proof.
  unfold extractSpeaker.
  destruct (stripPrefix _ raw) as [rest|]; [|congruence].
  destruct (spanDigits rest) as [[|d ds] [|a after]]; try congruence.
  destruct (decide (a = ":"%char)) as [->|Hne]; [discriminate|].
  destruct a as [[] [] [] [] [] [] [] []]; congruence.
Qed.

(** Every fragment the transcription collaborator returns passes. *)
Lemma transcribeAudioChunk_labelled (env : Env) (ts : Z) :
  labelled (transcribeAudioChunk env ts).
Proof.
  unfold labelled, transcribeAudioChunk.
  destruct (apiKey env); cbn [negb]; [|discriminate].
  destruct (transcription env); cbn [speaker]; [|discriminate].
  apply extractSpeaker_truthy.
Qed.

(** The accumulators only ever receive what the collaborator returned. *)
Lemma handle_accumulatorsLabelled (env : Env) (ev : Inbound) (w : World) :
  accumulatorsLabelled w -> accumulatorsLabelled (handle env ev w).2.
Proof.
  unfold accumulatorsLabelled. intros Hw.
  destruct ev as [data|data|sid|sid|data]; cbn [handle].
  - run_handler.
    destruct (rejects env CreateSession); cbn; [exact Hw|].
    destruct (sessions (db w) !! generatedId env); cbn; [exact Hw|].
    apply map_Forall_insert_2; [constructor | exact Hw].
  - assert (Hnew : map_Forall (fun _ chunks => Forall labelled chunks)
              (<[chunk_sessionId data :=
                   default [] (sessionTranscripts w !! chunk_sessionId data)
                   ++ [transcribeAudioChunk env (chunk_timestamp data)]]>
                 (sessionTranscripts w))).
    { apply map_Forall_insert_2; [|exact Hw].
      apply Forall_app. split.
      - destruct (sessionTranscripts w !! chunk_sessionId data) as [cs|] eqn:Hcs;
          [exact (Hw _ _ Hcs) | constructor].
      - repeat constructor. apply transcribeAudioChunk_labelled. }
    run_handler. cbn.
    destruct (sessionProcessors w !! chunk_sessionId data); cbn; [|exact Hw].
    destruct (rejects env UpdateDuration); cbn; [exact Hnew|].
    destruct (sessions (db w) !! chunk_sessionId data); cbn; exact Hnew.
  - run_handler. destruct (rejects env UpdatePaused); cbn; [exact Hw|].
    destruct (sessions (db w) !! sid); cbn; exact Hw.
  - run_handler. destruct (rejects env UpdateRecording); cbn; [exact Hw|].
    destruct (sessions (db w) !! sid); cbn; exact Hw.
  - assert (Hdel : map_Forall (fun _ chunks => Forall labelled chunks)
              (delete (stop_sessionId data) (sessionTranscripts w)))
      by (apply map_Forall_delete; exact Hw).
    run_handler. cbn.
    destruct (sessions (db w) !! stop_sessionId data) eqn:Hr;
      repeat step; assumption.
Qed.

Lemma serve_accumulatorsLabelled (evs : list (Env * Inbound)) (w : World) :
  accumulatorsLabelled w -> accumulatorsLabelled (serve evs w).
Proof.
  revert w. induction evs as [|[env ev] evs IH]; intros w Hw; cbn [serve].
  - exact Hw.
  - apply IH, handle_accumulatorsLabelled, Hw.
Qed.

Lemma flatten_labelled (chunks : list TranscriptChunk) :
  Forall labelled chunks -> flatten chunks = flatten_spec chunks.
Proof.
  intros Hall. unfold flatten, flatten_spec. f_equal.
  induction Hall as [|c chunks Hc _ IH]; [reflexivity|].
  cbn [fmap list_fmap]. rewrite renderChunk_spec by exact Hc.
  f_equal. exact IH.
Qed.

(** C3. The accumulator of any session, after any events the server
    handled since it started, is flattened to the renderings
    ["{speaker}: {text}"], or ["{text}"] for a fragment without label,
    joined by newlines in accumulator order.  The same holds of any list
    of fragments whose labels, where present, are not empty, and the two
    fragments of the example give "Speaker 1: hello", a newline, "world". *)
Theorem flatten_renders_in_order :
  (forall (evs : list (Env * Inbound)) (id : string) (chunks : list TranscriptChunk),
      sessionTranscripts (serve evs initialWorld) !! id = Some chunks ->
      flatten chunks = flatten_spec chunks)
  /\ (forall chunks : list TranscriptChunk,
        Forall labelled chunks -> flatten chunks = flatten_spec chunks)
  /\ flatten [ {| timestamp := 0; text := "hello"; speaker := Some "Speaker 1" |};
               {| timestamp := 1; text := "world"; speaker := None |} ]
     = "Speaker 1: hello" +:+ newline +:+ "world".
Proof.
  split; [|split; [exact flatten_labelled | reflexivity]].
  intros evs id chunks Hchunks. apply flatten_labelled.
  assert (Hinit : accumulatorsLabelled initialWorld) by apply map_Forall_empty.
  exact (serve_accumulatorsLabelled evs initialWorld Hinit id chunks Hchunks).
Qed.

Lemma flatten_renders_in_order_witness :
  let chunks := [ {| timestamp := 0; text := "hello"; speaker := Some "Speaker 1" |};
                  {| timestamp := 1; text := "world"; speaker := None |} ] in
  let evs := [ (calmEnv "s1", StartRecording startMic);
               (calmEnv "s1", AudioChunk {| chunk_sessionId := "s1";
                                             chunk := [x52; x49; x46; x46];
                                             chunk_timestamp := 5000 |}) ] in
  let mock := transcribeAudioChunk (calmEnv "s1") 5000 in
  (Forall labelled chunks /\ flatten chunks = flatten_spec chunks)
  /\ (sessionTranscripts (serve evs initialWorld) !! "s1" = Some [mock]
      /\ flatten [mock] = flatten_spec [mock]).
Proof.
  intros chunks evs mock.
  assert (Hall : Forall labelled chunks)
    by (repeat constructor; unfold labelled; simpl; congruence).
  assert (Hacc : sessionTranscripts (serve evs initialWorld) !! "s1" = Some [mock])
    by reflexivity.
  split; split; [exact Hall | | exact Hacc | ].
  - exact (proj1 (proj2 flatten_renders_in_order) chunks Hall).
  - exact (proj1 flatten_renders_in_order evs "s1" [mock] Hacc).
Defined.

End Flattening.

(** * Properties of the socket handlers *)

Section StopRecording.
Variables (env : Env) (data : StopData) (w : World).

Local Abbreviation id := (stop_sessionId data).

(** The run in which every persistence call on the main path is answered. *)
Lemma stop_recording_success (r : Session.t) :
  sessions (db w) !! id = Some r ->
  stopPersists env ->
  stop_recording env data w
  = (Returned tt,
     {| sessionProcessors := delete id (sessionProcessors w);
        sessionTranscripts := delete id (sessionTranscripts w);
        db := {| sessions := <[id := completedRecord (stop_duration data) r]> (sessions (db w));
                 transcripts := transcripts (db w) ++ [transcriptRow w data];
                 summaries := summaries (db w)
                              ++ savedSummary env id (fullTranscriptOf w data) |};
        joined := joined w;
        emitted := emitted w
                   ++ [ (ToRoom id, StatusUpdate id PROCESSING);
                        (ToRoom id,
                         ProcessingComplete id ("/api/sessions/" +:+ id +:+ "/download"));
                        (ToRoom id, StatusUpdate id COMPLETED) ] |}).
Proof.
  intros Hr (Hp & Ht & Hc).
  unfold savedSummary, summaryOutcome, transcriptRow, fullTranscriptOf,
    completedRecord, withStatus.
  run_handler. rewrite Hp, Ht, Hc. cbn. rewrite Hr. cbn.
  destruct (apiKey env); cbn.
  - destruct (summarize env _); cbn.
    + destruct (rejects env CreateSummary); cbn;
        rewrite lookup_insert_eq; cbn;
        rewrite insert_insert_eq, <- !app_assoc, ?app_nil_r; reflexivity.
    + rewrite lookup_insert_eq; cbn.
      rewrite insert_insert_eq, <- !app_assoc, ?app_nil_r. reflexivity.
  - destruct (rejects env CreateSummary); cbn;
      rewrite lookup_insert_eq; cbn;
      rewrite insert_insert_eq, <- !app_assoc, ?app_nil_r; reflexivity.
Qed.

(** The transcript row is written before anything later can fail. *)
Lemma stop_recording_transcript (r : Session.t) :
  sessions (db w) !! id = Some r ->
  rejects env UpdateProcessing = false ->
  rejects env CreateTranscript = false ->
  transcripts (db (stop_recording env data w).2)
  = transcripts (db w) ++ [transcriptRow w data].
Proof.
  intros Hr Hp Ht. unfold transcriptRow, fullTranscriptOf.
  run_handler. rewrite Hp, Ht. cbn. repeat step; reflexivity.
Qed.

(** No record: the first update rejects, and so does the one in [catch]. *)
Lemma stop_recording_unknown :
  sessions (db w) !! id = None ->
  stop_recording env data w
  = (Returned tt, afterEmit w [(ToSocket, Error "Failed to stop recording")]).
Proof.
  intros Hr. unfold afterEmit. run_handler.
  destruct (rejects env UpdateProcessing), (rejects env UpdateError); cbn;
    rewrite ?Hr; cbn; rewrite ?Hr; reflexivity.
Qed.

Lemma stop_recording_registry :
  sessionProcessors w !! id = None ->
  sessionTranscripts w !! id = None ->
  (stop_recording env data w).1 = Returned tt
  /\ sessionProcessors (stop_recording env data w).2 = sessionProcessors w
  /\ sessionTranscripts (stop_recording env data w).2 = sessionTranscripts w.
Proof.
  intros Hproc Htrans.
  destruct (sessions (db w) !! stop_sessionId data) as [r|] eqn:Hr.
  - run_handler. cbn. repeat step; rewrite ?delete_id by assumption; auto.
  - rewrite stop_recording_unknown by exact Hr. auto.
Qed.

End StopRecording.

Section PauseResume.
Variables (env : Env) (id : string) (w : World).

Lemma pause_recording_known (r : Session.t) :
  sessions (db w) !! id = Some r ->
  rejects env UpdatePaused = false ->
  pause_recording env id w
  = (Returned tt,
     afterEmit (withSession id (withStatus PAUSED r) w)
               [(ToRoom id, StatusUpdate id PAUSED)]).
Proof. intros Hr Hp. run_handler. rewrite Hp. cbn. rewrite Hr. reflexivity. Qed.

Lemma resume_recording_known (r : Session.t) :
  sessions (db w) !! id = Some r ->
  rejects env UpdateRecording = false ->
  resume_recording env id w
  = (Returned tt,
     afterEmit (withSession id (withStatus RECORDING r) w)
               [(ToRoom id, StatusUpdate id RECORDING)]).
Proof. intros Hr Hp. run_handler. rewrite Hp. cbn. rewrite Hr. reflexivity. Qed.

Lemma pause_recording_unknown :
  sessions (db w) !! id = None ->
  pause_recording env id w
  = (Returned tt, afterEmit w [(ToSocket, Error "Failed to pause recording")]).
Proof.
  intros Hr. run_handler. destruct (rejects env UpdatePaused); cbn;
    rewrite ?Hr; reflexivity.
Qed.

Lemma resume_recording_unknown :
  sessions (db w) !! id = None ->
  resume_recording env id w
  = (Returned tt, afterEmit w [(ToSocket, Error "Failed to resume recording")]).
Proof.
  intros Hr. run_handler. destruct (rejects env UpdateRecording); cbn;
    rewrite ?Hr; reflexivity.
Qed.

Lemma pause_recording_registry :
  (pause_recording env id w).1 = Returned tt
  /\ sessionProcessors (pause_recording env id w).2 = sessionProcessors w
  /\ sessionTranscripts (pause_recording env id w).2 = sessionTranscripts w.
Proof.
  run_handler. destruct (rejects env UpdatePaused); cbn; [auto|].
  destruct (sessions (db w) !! id); cbn; auto.
Qed.

Lemma resume_recording_registry :
  (resume_recording env id w).1 = Returned tt
  /\ sessionProcessors (resume_recording env id w).2 = sessionProcessors w
  /\ sessionTranscripts (resume_recording env id w).2 = sessionTranscripts w.
Proof.
  run_handler. destruct (rejects env UpdateRecording); cbn; [auto|].
  destruct (sessions (db w) !! id); cbn; auto.
Qed.

End PauseResume.

Lemma audio_chunk_unknown (env : Env) (data : ChunkData) (w : World) :
  sessionProcessors w !! chunk_sessionId data = None ->
  audio_chunk env data w
  = (Returned tt, afterEmit w [(ToSocket, Error "Session not found")]).
Proof. intros Hp. run_handler. cbn. rewrite Hp. reflexivity. Qed.

Lemma start_recording_success (env : Env) (data : StartData) (w : World) :
  sessions (db w) !! generatedId env = None ->
  rejects env CreateSession = false ->
  start_recording env data w
  = (Returned tt,
     {| sessionProcessors := <[generatedId env := AudioProcessor.create]> (sessionProcessors w);
        sessionTranscripts := <[generatedId env := []]> (sessionTranscripts w);
        db := {| sessions :=
                   <[generatedId env :=
                       {| Session.userId := start_userId data;
                          Session.audioSource := start_audioSource data;
                          Session.status := RECORDING;
                          Session.title := generatedTitle env;
                          Session.duration := None |}]> (sessions (db w));
                 transcripts := transcripts (db w);
                 summaries := summaries (db w) |};
        joined := joined w ++ [generatedId env];
        emitted := emitted w ++ [(ToSocket, SessionCreated (generatedId env))] |}).
Proof. intros Hfresh Hc. run_handler. rewrite Hc. cbn. rewrite Hfresh. reflexivity. Qed.

(** ** What the stop handler persists *)

Lemma content_rule (ct : option string) (flattened : string) :
  transcriptContent (chooseTranscript ct flattened) = content_amended ct flattened.
Proof.
  unfold transcriptContent, chooseTranscript, content_amended.
  destruct ct as [ct|]; rewrite <- ?truthy_nonEmpty; [|reflexivity].
  destruct (truthy ct) eqn:Hct; cbn [andb]; [|reflexivity].
  destruct (negb (truthy flattened) || includes "Mock transcription" flattened);
    [rewrite Hct|]; reflexivity.
Qed.

(** C2, as stated, fails: a client transcript that is provided but empty is
    not what gets persisted.  With no fragments accumulated the stated rule
    gives the empty string, the handler writes "No transcript available". *)
Lemma empty_client_transcript_not_persisted :
  let data := stopOf "s1" (Some "") None in
  let w := (stop_recording (calmEnv "s1") data startedWorld).2 in
  flatten (default [] (sessionTranscripts startedWorld !! "s1")) = ""
  /\ Transcript.content <$> transcripts (db w) = ["No transcript available"]
  /\ content_spec (clientTranscript data) "" = ""
  /\ Transcript.content <$> transcripts (db w) <> [content_spec (clientTranscript data) ""].
Proof. vm_compute. repeat split; congruence. Qed.

(** C2, amended.  When the stop handler gets as far as saving the transcript,
    the row it adds has as content: the client's transcript if that is
    provided and not empty and the flattened text is empty or contains
    "Mock transcription"; otherwise the flattened text if that is not empty;
    otherwise "No transcript available".  A start followed at once by a stop
    without client transcript saves "No transcript available" and leaves the
    session [COMPLETED]. *)
Theorem persisted_transcript_content :
  (forall (env : Env) (data : StopData) (w : World) (r : Session.t),
      sessions (db w) !! stop_sessionId data = Some r ->
      rejects env UpdateProcessing = false ->
      rejects env CreateTranscript = false ->
      let chunks := default [] (sessionTranscripts w !! stop_sessionId data) in
      transcripts (db (stop_recording env data w).2)
      = transcripts (db w)
        ++ [ {| Transcript.sessionId := stop_sessionId data;
                Transcript.content := content_amended (clientTranscript data) (flatten chunks);
                Transcript.chunks := chunks |} ])
  /\ (forall (env1 env2 : Env) (start : StartData) (d : option Z) (w : World),
        sessions (db w) !! generatedId env1 = None ->
        rejects env1 CreateSession = false ->
        stopPersists env2 ->
        let id := generatedId env1 in
        let w1 := (start_recording env1 start w).2 in
        let w2 := (stop_recording env2 (stopOf id None d) w1).2 in
        transcripts (db w2)
        = transcripts (db w)
          ++ [ {| Transcript.sessionId := id;
                  Transcript.content := "No transcript available";
                  Transcript.chunks := [] |} ]
        /\ Session.status <$> sessions (db w2) !! id = Some COMPLETED).
Proof.
  split.
  - intros env data w r Hr Hp Ht chunks.
    rewrite (stop_recording_transcript env data w r Hr Hp Ht).
    unfold transcriptRow, fullTranscriptOf. rewrite content_rule. reflexivity.
  - intros env1 env2 start d w Hfresh Hc Hstop id w1 w2. subst w2 w1.
    rewrite (start_recording_success env1 start w Hfresh Hc). cbn [snd].
    erewrite stop_recording_success; [| cbn; apply lookup_insert_eq | exact Hstop].
    cbn [snd db transcripts sessions stopOf stop_sessionId]. split.
    + unfold transcriptRow, fullTranscriptOf. cbn. rewrite lookup_insert_eq. reflexivity.
    + rewrite lookup_insert_eq. reflexivity.
Qed.

Lemma persisted_transcript_content_witness :
  (let data := stopOf "s1" (Some "spoken words") None in
   transcripts (db (stop_recording (calmEnv "s1") data streamingWorld).2)
   = [ {| Transcript.sessionId := "s1";
          Transcript.content := "spoken words";
          Transcript.chunks := default [] (sessionTranscripts streamingWorld !! "s1") |} ])
  /\ (let w1 := (start_recording (calmEnv "s1") startMic initialWorld).2 in
      let w2 := (stop_recording (calmEnv "s1") (stopOf "s1" None None) w1).2 in
      transcripts (db w2)
      = [ {| Transcript.sessionId := "s1";
             Transcript.content := "No transcript available";
             Transcript.chunks := [] |} ]
      /\ Session.status <$> sessions (db w2) !! "s1" = Some COMPLETED).
Proof.
  split.
  - exact (proj1 persisted_transcript_content (calmEnv "s1")
             (stopOf "s1" (Some "spoken words") None) streamingWorld
             {| Session.userId := "demo-user-id";
                Session.audioSource := "microphone";
                Session.status := RECORDING;
                Session.title := "Recording";
                Session.duration := Some 5 |}
             eq_refl eq_refl eq_refl).
  - exact (proj2 persisted_transcript_content (calmEnv "s1") (calmEnv "s1")
             startMic None initialWorld eq_refl eq_refl
             (conj eq_refl (conj eq_refl eq_refl))).
Defined.

(** ** Pause and resume *)

(** C5, as stated, fails: neither handler looks at the current status.  A
    session that is [COMPLETED] becomes [PAUSED] on pause and [RECORDING] on
    resume, and the change is broadcast. *)
Lemma pause_resume_from_completed :
  Session.status <$> sessions (db finishedWorld) !! "s1" = Some COMPLETED
  /\ (let w := (pause_recording (calmEnv "s1") "s1" finishedWorld).2 in
      Session.status <$> sessions (db w) !! "s1" = Some PAUSED
      /\ last (emitted w) = Some (ToRoom "s1", StatusUpdate "s1" PAUSED))
  /\ (let w := (resume_recording (calmEnv "s1") "s1" finishedWorld).2 in
      Session.status <$> sessions (db w) !! "s1" = Some RECORDING
      /\ last (emitted w) = Some (ToRoom "s1", StatusUpdate "s1" RECORDING)).
Proof. vm_compute. repeat split. Qed.

(** C5, amended.  For a session with a persisted record, whatever its
    status, a pause whose update is answered persists [PAUSED] and a resume
    persists [RECORDING]; each broadcasts the new status to the session's
    room and changes nothing else.  In particular pause takes [RECORDING] to
    [PAUSED] and resume takes [PAUSED] to [RECORDING]. *)
Theorem pause_resume_overwrite_status
    (env : Env) (id : string) (w : World) (r : Session.t) :
  sessions (db w) !! id = Some r ->
  (rejects env UpdatePaused = false ->
   pause_recording env id w
   = (Returned tt,
      afterEmit (withSession id (withStatus PAUSED r) w)
                [(ToRoom id, StatusUpdate id PAUSED)])
   /\ Session.status (withStatus PAUSED r) = PAUSED)
  /\ (rejects env UpdateRecording = false ->
      resume_recording env id w
      = (Returned tt,
         afterEmit (withSession id (withStatus RECORDING r) w)
                   [(ToRoom id, StatusUpdate id RECORDING)])
      /\ Session.status (withStatus RECORDING r) = RECORDING).
Proof.
  intros Hr. split; intros Hok; (split; [|reflexivity]).
  - apply pause_recording_known; assumption.
  - apply resume_recording_known; assumption.
Qed.

Lemma pause_resume_overwrite_status_witness :
  let paused := (pause_recording (calmEnv "s1") "s1" streamingWorld).2 in
  let resumed := (resume_recording (calmEnv "s1") "s1" paused).2 in
  Session.status <$> sessions (db streamingWorld) !! "s1" = Some RECORDING
  /\ Session.status <$> sessions (db paused) !! "s1" = Some PAUSED
  /\ Session.status <$> sessions (db resumed) !! "s1" = Some RECORDING.
Proof.
  intros paused resumed.
  pose (r := {| Session.userId := "demo-user-id";
                Session.audioSource := "microphone";
                Session.status := RECORDING;
                Session.title := "Recording";
                Session.duration := Some 5 |}).
  assert (Hr : sessions (db streamingWorld) !! "s1" = Some r) by reflexivity.
  destruct (pause_resume_overwrite_status (calmEnv "s1") "s1" streamingWorld r Hr)
    as [Hpause _].
  destruct (Hpause eq_refl) as [Hpaused _].
  assert (Hr' : sessions (db paused) !! "s1" = Some (withStatus PAUSED r))
    by (subst paused; rewrite Hpaused; apply lookup_insert_eq).
  destruct (pause_resume_overwrite_status (calmEnv "s1") "s1" paused _ Hr')
    as [_ Hresume].
  destruct (Hresume eq_refl) as [Hresumed _].
  split; [reflexivity|]. split.
  - rewrite Hr'. reflexivity.
  - subst resumed. rewrite Hresumed. cbn. rewrite lookup_insert_eq. reflexivity.
Defined.

(** ** Events that name a session without registry entry *)

(** C6, as stated, fails: the session "s1" was stopped, so the registry has
    no entry for it, and a pause for "s1" is answered with a broadcast
    [status-update], not with an error. *)
Lemma pause_without_registry_entry :
  let w := (handle (calmEnv "s1") (PauseRecording "s1") finishedWorld).2 in
  sessionProcessors finishedWorld !! "s1" = None
  /\ sessionTranscripts finishedWorld !! "s1" = None
  /\ emitted w = emitted finishedWorld ++ [(ToRoom "s1", StatusUpdate "s1" PAUSED)]
  /\ filter (fun e => isError e = true) (emitted w) = [].
Proof. vm_compute. repeat split. Qed.

(** C6, amended.  An event that names a session without registry entry
    returns normally and leaves both registry maps as they are.  If the
    event is an audio chunk, or if the session has no persisted record
    either, the handler's only effect is one [error] event sent to the
    originating connection. *)
Theorem unknown_session_yields_error (env : Env) (ev : Inbound) (id : string) (w : World) :
  referenced ev = Some id ->
  sessionProcessors w !! id = None ->
  sessionTranscripts w !! id = None ->
  (handle env ev w).1 = Returned tt
  /\ sessionProcessors (handle env ev w).2 = sessionProcessors w
  /\ sessionTranscripts (handle env ev w).2 = sessionTranscripts w
  /\ (isAudioChunk ev = true \/ sessions (db w) !! id = None ->
      (handle env ev w).2 = afterEmit w [(ToSocket, Error (unknownSessionMessage ev))]).
Proof.
  intros Href Hproc Htrans.
  destruct ev as [data|data|sid|sid|data]; cbn in Href; simplify_eq; cbn [handle isAudioChunk].
  - rewrite audio_chunk_unknown by exact Hproc. cbn. repeat split; eauto.
  - destruct (pause_recording_registry env id w) as (? & ? & ?).
    repeat split; try assumption.
    intros [?|Hnone]; [discriminate|].
    rewrite pause_recording_unknown by exact Hnone. reflexivity.
  - destruct (resume_recording_registry env id w) as (? & ? & ?).
    repeat split; try assumption.
    intros [?|Hnone]; [discriminate|].
    rewrite resume_recording_unknown by exact Hnone. reflexivity.
  - destruct (stop_recording_registry env data w Hproc Htrans) as (? & ? & ?).
    repeat split; try assumption.
    intros [?|Hnone]; [discriminate|].
    rewrite stop_recording_unknown by exact Hnone. reflexivity.
Qed.

Lemma unknown_session_yields_error_witness :
  let stop := StopRecording (stopOf "nobody" None None) in
  let audio := AudioChunk {| chunk_sessionId := "s1"; chunk := [x00]; chunk_timestamp := 10 |} in
  (handle (calmEnv "s2") stop finishedWorld).2
  = afterEmit finishedWorld [(ToSocket, Error "Failed to stop recording")]
  /\ (handle (calmEnv "s2") audio finishedWorld).2
     = afterEmit finishedWorld [(ToSocket, Error "Session not found")].
Proof.
  intros stop audio. split.
  - destruct (unknown_session_yields_error (calmEnv "s2") stop "nobody" finishedWorld
                eq_refl eq_refl eq_refl) as (_ & _ & _ & Herr).
    exact (Herr (or_intror eq_refl)).
  - destruct (unknown_session_yields_error (calmEnv "s2") audio "s1" finishedWorld
                eq_refl eq_refl eq_refl) as (_ & _ & _ & Herr).
    exact (Herr (or_introl eq_refl)).
Defined.

(** ** The end of a stop *)

Lemma savedSummary_fails (env : Env) (id fullTranscript : string) :
  summaryStepFails env fullTranscript -> savedSummary env id fullTranscript = [].
Proof.
  unfold summaryStepFails, savedSummary. intros [-> | ->]; [reflexivity|].
  destruct (summaryOutcome env fullTranscript); reflexivity.
Qed.

(** C7. When the summarization call throws, or saving its result is
    rejected, and the other persistence calls of the stop are answered, the
    handler returns normally: no summary row is added, the session record
    ends [COMPLETED], both registry entries are deleted, and the room gets
    [processing-complete] and then [status-update] with [COMPLETED] (after
    the earlier [status-update] with [PROCESSING]). *)
Theorem summary_failure_is_not_fatal
    (env : Env) (data : StopData) (w : World) (r : Session.t) :
  let id := stop_sessionId data in
  sessions (db w) !! id = Some r ->
  stopPersists env ->
  summaryStepFails env (fullTranscriptOf w data) ->
  let result := stop_recording env data w in
  result.1 = Returned tt
  /\ summaries (db result.2) = summaries (db w)
  /\ Session.status <$> sessions (db result.2) !! id = Some COMPLETED
  /\ sessionProcessors result.2 = delete id (sessionProcessors w)
  /\ sessionTranscripts result.2 = delete id (sessionTranscripts w)
  /\ emitted result.2
     = emitted w
       ++ [ (ToRoom id, StatusUpdate id PROCESSING);
            (ToRoom id, ProcessingComplete id ("/api/sessions/" +:+ id +:+ "/download"));
            (ToRoom id, StatusUpdate id COMPLETED) ].
Proof.
  intros id Hr Hok Hfail result. subst result.
  rewrite (stop_recording_success env data w r Hr Hok).
  cbn [fst snd db summaries sessions sessionProcessors sessionTranscripts emitted].
  rewrite savedSummary_fails by exact Hfail.
  rewrite app_nil_r, lookup_insert_eq. repeat split.
Qed.

Lemma summary_failure_is_not_fatal_witness :
  let result := stop_recording (noSummaryEnv "s1") (stopOf "s1" None None) streamingWorld in
  result.1 = Returned tt
  /\ summaries (db result.2) = summaries (db streamingWorld)
  /\ Session.status <$> sessions (db result.2) !! "s1" = Some COMPLETED
  /\ sessionProcessors result.2 = delete "s1" (sessionProcessors streamingWorld)
  /\ sessionTranscripts result.2 = delete "s1" (sessionTranscripts streamingWorld)
  /\ emitted result.2
     = emitted streamingWorld
       ++ [ (ToRoom "s1", StatusUpdate "s1" PROCESSING);
            (ToRoom "s1", ProcessingComplete "s1" "/api/sessions/s1/download");
            (ToRoom "s1", StatusUpdate "s1" COMPLETED) ].
Proof.
  exact (summary_failure_is_not_fatal (noSummaryEnv "s1") (stopOf "s1" None None)
           streamingWorld
           {| Session.userId := "demo-user-id";
              Session.audioSource := "microphone";
              Session.status := RECORDING;
              Session.title := "Recording";
              Session.duration := Some 5 |}
           eq_refl (conj eq_refl (conj eq_refl eq_refl)) (or_introl eq_refl)).
Defined.

(** C9.  A stop whose persistence calls are answered leaves the session
    record [COMPLETED].  Its duration is the client's value when that value
    is not zero; a client value of zero is dropped by the truthiness test
    and the record keeps the duration it had, as it does when the client
    sends none. *)
Theorem stop_sets_duration_unless_zero
    (env : Env) (data : StopData) (w : World) (r : Session.t) :
  let id := stop_sessionId data in
  sessions (db w) !! id = Some r ->
  stopPersists env ->
  exists r' : Session.t,
    sessions (db (stop_recording env data w).2) !! id = Some r'
    /\ Session.status r' = COMPLETED
    /\ Session.duration r'
       = match stop_duration data with
         | Some d => if decide (d = 0) then Session.duration r else Some d
         | None => Session.duration r
         end.
Proof.
  intros id Hr Hok.
  exists (completedRecord (stop_duration data) r).
  rewrite (stop_recording_success env data w r Hr Hok).
  cbn [snd db sessions]. rewrite lookup_insert_eq. repeat split.
  unfold completedRecord, durationPatch. cbn.
  destruct (stop_duration data) as [d|]; [|reflexivity].
  destruct (decide (d = 0)); reflexivity.
Qed.

(** At the failing input: the record holds 5 seconds (from the audio chunk
    stamped 5000 ms), the client stops with duration 0, the record still
    holds 5. *)
Lemma stop_sets_duration_unless_zero_witness :
  Session.duration <$> sessions (db streamingWorld) !! "s1" = Some (Some 5)
  /\ exists r' : Session.t,
       sessions (db (stop_recording (calmEnv "s1") (stopOf "s1" None (Some 0))
                       streamingWorld).2) !! "s1" = Some r'
       /\ Session.status r' = COMPLETED
       /\ Session.duration r' = Some 5.
Proof.
  split; [reflexivity|].
  exact (stop_sets_duration_unless_zero (calmEnv "s1") (stopOf "s1" None (Some 0))
           streamingWorld
           {| Session.userId := "demo-user-id";
              Session.audioSource := "microphone";
              Session.status := RECORDING;
              Session.title := "Recording";
              Session.duration := Some 5 |}
           eq_refl (conj eq_refl (conj eq_refl eq_refl))).
Defined.

(** * Further properties of the audio buffer *)

Module AudioProcessorMore.
Import AudioProcessor AudioProcessorProofs.

Lemma sumByteLength_nonneg (cs : list ArrayBuffer) : 0 <= sumByteLength cs.
Proof.
  induction cs as [|c cs IH]; [rewrite sumByteLength_nil; lia|].
  rewrite sumByteLength_cons. pose proof (byteLength_nonneg c). lia.
Qed.

Lemma mergeChunks_concat (cs : list ArrayBuffer) : mergeChunks cs = Some (concat cs).
Proof.
  unfold mergeChunks.
  apply (mergeLoop_fills cs [] (newUint8Array (sumByteLength cs))).
  apply byteLength_newUint8Array, sumByteLength_nonneg.
Qed.

Lemma applyOp_suffix (p : t) (op : BufferOp) (arrived : list ArrayBuffer) :
  chunks p `suffix_of` arrived ->
  chunks (applyOp p op) `suffix_of` arrived ++ addedChunks [op].
Proof.
  intros Hp. destruct op as [c| |]; cbn [applyOp addedChunks].
  - unfold addChunk. cbn [snd chunks].
    apply suffix_app.
    destruct (currentBufferSize p + byteLength c >? maxBufferSize); [|exact Hp].
    unfold clearOldestChunks, splice0. cbn [chunks].
    etrans; [apply suffix_drop | exact Hp].
  - rewrite app_nil_r. apply suffix_nil.
  - rewrite app_nil_r. apply suffix_nil.
Qed.

Lemma addedChunks_cons (op : BufferOp) (ops : list BufferOp) :
  addedChunks (op :: ops) = addedChunks [op] ++ addedChunks ops.
Proof. destruct op; reflexivity. Qed.

Lemma foldl_applyOp_suffix (ops : list BufferOp) :
  forall (p : t) (arrived : list ArrayBuffer),
    chunks p `suffix_of` arrived ->
    chunks (foldl applyOp p ops) `suffix_of` arrived ++ addedChunks ops.
Proof.
  induction ops as [|op ops IH]; intros p arrived Hp.
  - cbn. rewrite app_nil_r. exact Hp.
  - cbn [foldl]. rewrite addedChunks_cons, app_assoc.
    apply IH, applyOp_suffix, Hp.
Qed.

(** X1. Whatever calls are made on a new buffer, the chunks it holds are
    the last ones that arrived, in arrival order: a suffix of the sequence
    of all chunks passed to [addChunk]. *)
Theorem buffer_holds_latest_arrivals (ops : list BufferOp) :
  chunks (runOps ops) `suffix_of` addedChunks ops.
Proof.
  unfold runOps.
  apply (foldl_applyOp_suffix ops create []). apply suffix_nil.
Qed.

Lemma foldl_addChunk_fits (cs : list ArrayBuffer) :
  forall p : t,
    currentBufferSize p + sumByteLength cs <= maxBufferSize ->
    foldl applyOp p (OpAddChunk <$> cs)
    = {| chunks := chunks p ++ cs;
         currentBufferSize := currentBufferSize p + sumByteLength cs |}.
Proof.
  induction cs as [|c cs IH]; intros p Hfit.
  - cbn [fmap list_fmap foldl]. rewrite app_nil_r, sumByteLength_nil, Z.add_0_r.
    destruct p; reflexivity.
  - rewrite sumByteLength_cons in Hfit |- *.
    pose proof (sumByteLength_nonneg cs). pose proof (byteLength_nonneg c).
    cbn [fmap list_fmap foldl applyOp].
    rewrite addChunk_fits by lia. cbn [snd].
    rewrite IH by (cbn [currentBufferSize]; lia).
    cbn [chunks currentBufferSize]. rewrite <- app_assoc. f_equal. lia.
Qed.

(** X2. Chunks whose byte lengths sum to at most the ceiling are all kept:
    after adding them to a new buffer, [getAndClearChunks] returns exactly
    these chunks in order and leaves the buffer as new, the counter was
    their total size, and merging what was returned gives their
    concatenation. *)
Theorem fitting_chunks_survive (cs : list ArrayBuffer) :
  sumByteLength cs <= maxBufferSize ->
  let p := runOps (OpAddChunk <$> cs) in
  getBufferSize p = sumByteLength cs
  /\ getAndClearChunks p = (cs, create)
  /\ mergeChunks (getAndClearChunks p).1 = Some (concat cs).
Proof.
  intros Hfit p. subst p. unfold runOps.
  rewrite foldl_addChunk_fits by (cbn [currentBufferSize create]; lia).
  unfold getBufferSize, getAndClearChunks. cbn.
  repeat split. apply mergeChunks_concat.
Qed.

Lemma fitting_chunks_survive_witness :
  let cs := [[x01; x02]; []; [x03]] in
  getAndClearChunks (runOps (OpAddChunk <$> cs)) = (cs, create)
  /\ mergeChunks cs = Some [x01; x02; x03].
Proof.
  intros cs.
  assert (Hfit : sumByteLength cs <= maxBufferSize) by (vm_compute; discriminate).
  destruct (fitting_chunks_survive cs Hfit) as (_ & Hdrain & Hmerge).
  split; [exact Hdrain|]. rewrite Hdrain in Hmerge. exact Hmerge.
Defined.

(** X3. The counter never goes negative, although eviction subtracts from
    it, and it is zero whenever the buffer holds no chunk. *)
Theorem counter_never_negative (ops : list BufferOp) :
  0 <= getBufferSize (runOps ops)
  /\ (getChunkCount (runOps ops) = 0%nat -> getBufferSize (runOps ops) = 0).
Proof.
  assert (Hc : consistent (runOps ops))
    by (apply foldl_applyOp_consistent, create_consistent).
  unfold getBufferSize, getChunkCount. rewrite Hc. split.
  - apply sumByteLength_nonneg.
  - intros Hlen. apply length_zero_iff_nil in Hlen. rewrite Hlen. reflexivity.
Qed.

Lemma counter_never_negative_witness :
  let ops := [OpAddChunk [x01; x02]; OpGetAndClearChunks] in
  getChunkCount (runOps ops) = 0%nat /\ getBufferSize (runOps ops) = 0.
Proof.
  intros ops. split; [reflexivity|].
  exact (proj2 (counter_never_negative ops) eq_refl).
Defined.

(** X4. Merging composes: the merge of two lists of fragments put one after
    the other is the merge of the first followed by the merge of the
    second; no fragment gives the empty payload and one fragment gives
    itself. *)
Theorem mergeChunks_app (xs ys : list ArrayBuffer) :
  (exists mx my : ArrayBuffer,
      mergeChunks xs = Some mx /\ mergeChunks ys = Some my
      /\ mergeChunks (xs ++ ys) = Some (mx ++ my))
  /\ mergeChunks [] = Some []
  /\ (forall c : ArrayBuffer, mergeChunks [c] = Some c).
Proof.
  split; [|split].
  - exists (concat xs), (concat ys).
    rewrite !mergeChunks_concat, concat_app. auto.
  - apply mergeChunks_concat.
  - intros c. rewrite mergeChunks_concat. cbn. rewrite app_nil_r. reflexivity.
Qed.

End AudioProcessorMore.

(** * Properties of the transcription helpers *)

Section StringFacts.

Lemma append_cons (c : ascii) (a b : string) : String c a +:+ b = String c (a +:+ b).
Proof. reflexivity. Qed.

Lemma length_append (a b : string) :
  String.length (a +:+ b) = (String.length a + String.length b)%nat.
Proof.
  induction a as [|c a IH]; [reflexivity|].
  rewrite append_cons. cbn [String.length]. rewrite IH. reflexivity.
Qed.

Lemma prefix_append (n a b : string) :
  String.prefix n a = true -> String.prefix n (a +:+ b) = true.
Proof.
  revert a. induction n as [|x n IH]; intros a Hp.
  - destruct a; [destruct b|]; reflexivity.
  - destruct a as [|y a]; [discriminate|].
    rewrite append_cons. cbn [String.prefix] in *.
    destruct (ascii_dec x y); [apply IH; exact Hp | discriminate].
Qed.

Lemma includes_unfold (n hay : string) :
  includes n hay
  = String.prefix n hay
    || match hay with
       | EmptyString => false
       | String _ hay' => includes n hay'
       end.
Proof. destruct hay; reflexivity. Qed.

Lemma includes_append_l (n a b : string) :
  includes n a = true -> includes n (a +:+ b) = true.
Proof.
  induction a as [|c a IH]; intros Hin.
  - rewrite includes_unfold in Hin. rewrite orb_false_r in Hin.
    rewrite includes_unfold. apply orb_true_iff. left.
    apply (prefix_append n "" b Hin).
  - rewrite includes_unfold in Hin. apply orb_true_iff in Hin.
    rewrite append_cons, includes_unfold. apply orb_true_iff.
    destruct Hin as [Hp|Hin]; [left | right; apply IH; exact Hin].
    apply (prefix_append n (String c a) b Hp).
Qed.

Lemma includes_append_r (n a b : string) :
  includes n b = true -> includes n (a +:+ b) = true.
Proof.
  intros Hin. induction a as [|c a IH]; [exact Hin|].
  rewrite append_cons, includes_unfold, IH. apply orb_true_r.
Qed.

End StringFacts.

Section Gemini.

Lemma stripPrefix_Some (p s rest : string) :
  stripPrefix p s = Some rest <-> s = p +:+ rest.
Proof.
  revert s. induction p as [|a p IH]; intros s.
  - cbn [stripPrefix]. change ("" +:+ rest) with rest. split; congruence.
  - rewrite append_cons. destruct s as [|b s]; cbn [stripPrefix]; [split; discriminate|].
    destruct (decide (a = b)) as [->|Hne].
    + rewrite IH. split; congruence.
    + split; [discriminate | congruence].
Qed.

Lemma spanDigits_spec (s : string) :
  allDigits (spanDigits s).1 = true
  /\ s = (spanDigits s).1 +:+ (spanDigits s).2
  /\ headIsDigitFree (spanDigits s).2.
Proof.
  induction s as [|c s (IH1 & IH2 & IH3)]; [repeat split; exact I|].
  cbn [spanDigits]. destruct (isDigit c) eqn:Hc.
  - destruct (spanDigits s) as [ds after]. cbn [fst snd] in *.
    rewrite append_cons, <- IH2. cbn [allDigits]. rewrite Hc, IH1. auto.
  - cbn [fst snd allDigits headIsDigitFree]. rewrite Hc. auto.
Qed.

Lemma spanDigits_append (ds after : string) :
  allDigits ds = true -> headIsDigitFree after ->
  spanDigits (ds +:+ after) = (ds, after).
Proof.
  intros Hds Hafter. induction ds as [|c ds IH].
  - change ("" +:+ after) with after.
    destruct after as [|a after]; [reflexivity|].
    cbn [spanDigits headIsDigitFree] in *.
    destruct (isDigit a); [discriminate | reflexivity].
  - cbn [allDigits] in Hds. apply andb_true_iff in Hds as [Hc Hds].
    rewrite append_cons. cbn [spanDigits]. rewrite Hc, (IH Hds). reflexivity.
Qed.

(** X5. [extractSpeaker] implements the pattern [/^(Speaker \d+):/]: it
    returns a label exactly when the text is "Speaker ", one or more decimal
    digits and a colon, followed by anything, and the label is the text
    before the colon. *)
Theorem extractSpeaker_matches (raw label : string) :
  extractSpeaker raw = Some label
  <-> exists digits rest : string,
        digits <> "" /\ allDigits digits = true
        /\ raw = "Speaker " +:+ digits +:+ ":" +:+ rest
        /\ label = "Speaker " +:+ digits.
Proof.
  unfold extractSpeaker. split.
  - destruct (stripPrefix "Speaker " raw) as [body|] eqn:Hstrip; [|discriminate].
    apply stripPrefix_Some in Hstrip.
    destruct (spanDigits_spec body) as (Hds & Hbody & _).
    destruct (spanDigits body) as [[|d ds] [|a after]]; try discriminate.
    cbn [fst snd] in *.
    destruct (decide (a = ":"%char)) as [->|Hne].
    + intros [= <-]. exists (String d ds), after.
      repeat split; [discriminate | exact Hds | ].
      rewrite Hstrip, Hbody. reflexivity.
    + destruct a as [[] [] [] [] [] [] [] []]; try discriminate; congruence.
  - intros (digits & rest & Hne & Hds & -> & ->).
    assert (Hstrip : stripPrefix "Speaker " ("Speaker " +:+ digits +:+ ":" +:+ rest)
                     = Some (digits +:+ ":" +:+ rest))
      by (apply stripPrefix_Some; reflexivity).
    rewrite Hstrip.
    rewrite (spanDigits_append digits (":" +:+ rest) Hds) by reflexivity.
    destruct digits; [congruence | reflexivity].
Qed.

Lemma extractSpeaker_matches_witness :
  extractSpeaker "Speaker 12: good morning" = Some "Speaker 12"
  /\ extractSpeaker "Speaker : no number" = None.
Proof.
  split.
  - apply (proj2 (extractSpeaker_matches "Speaker 12: good morning" "Speaker 12")).
    exists "12", " good morning". repeat split. discriminate.
  - destruct (extractSpeaker "Speaker : no number") as [label|] eqn:Hlabel; [|reflexivity].
    apply (proj1 (extractSpeaker_matches _ _)) in Hlabel
      as (digits & rest & Hne & Hds & Hraw & _).
    destruct digits as [|d digits]; [congruence|].
    cbn in Hds. injection Hraw as Hd _. subst d. discriminate.
Defined.


Lemma trimStart_id (s : string) : headIsSpace s = false -> trimStart s = s.
Proof. destruct s as [|c s]; [reflexivity|]. cbn. intros ->. reflexivity. Qed.

Lemma trimEnd_cons (c : ascii) (s : string) :
  trimEnd (String c s)
  = match trimEnd s with
    | EmptyString => if isWhiteSpace c then "" else String c ""
    | kept => String c kept
    end.
Proof. reflexivity. Qed.




(** Trailing white space is cut behind a prefix that ends in another character. *)
Lemma trimEnd_append (a b : string) :
  a <> "" -> lastIsSpace a = false -> trimEnd (a +:+ b) = a +:+ trimEnd b.
Proof.
  induction a as [|c a IH]; [congruence|]. intros _ Hlast.
  rewrite !append_cons, trimEnd_cons. destruct a as [|k ks].
  - change ("" +:+ b) with b. change ("" +:+ trimEnd b) with (trimEnd b).
    cbn in Hlast. rewrite Hlast. destruct (trimEnd b); reflexivity.
  - rewrite IH by (congruence || exact Hlast). rewrite append_cons. reflexivity.
Qed.

Lemma lastIsSpace_append (a b : string) :
  b <> "" -> lastIsSpace (a +:+ b) = lastIsSpace b.
Proof.
  intros Hb. induction a as [|c a IH]; [reflexivity|].
  rewrite append_cons. cbn [lastIsSpace]. rewrite IH.
  destruct (a +:+ b) eqn:Hab; [|reflexivity].
  destruct a; [change ("" +:+ b) with b in Hab; congruence | discriminate].
Qed.




(** X7. A fragment that got a speaker label still has the label at the head
    of its text, so its rendering in the flattened transcript shows the
    label twice: once from the template, once from the text. *)
Theorem labelled_fragment_repeats_label (env : Env) (ts : Z) (label : string) :
  speaker (transcribeAudioChunk env ts) = Some label ->
  exists rest : string,
    text (transcribeAudioChunk env ts) = label +:+ ":" +:+ rest
    /\ renderChunk (transcribeAudioChunk env ts)
       = label +:+ ": " +:+ label +:+ ":" +:+ rest.
Proof.
  unfold transcribeAudioChunk.
  destruct (apiKey env); cbn [negb]; [|discriminate].
  destruct (transcription env) as [answer|message]; cbn [speaker text]; [|discriminate].
  intros Hlabel. pose proof Hlabel as Hmatch.
  apply extractSpeaker_matches in Hmatch as (digits & rest & Hne & Hds & Hraw & Hl).
  subst answer label.
  assert (Htext : trim ("Speaker " +:+ digits +:+ ":" +:+ rest)
                  = ("Speaker " +:+ digits) +:+ ":" +:+ trimEnd rest).
  { unfold trim. rewrite trimStart_id by reflexivity.
    assert (Hshape : "Speaker " +:+ digits +:+ ":" +:+ rest
                     = (("Speaker " +:+ digits) +:+ ":") +:+ rest)
      by (rewrite !append_assoc; reflexivity).
    rewrite Hshape, trimEnd_append.
    - rewrite !append_assoc. reflexivity.
    - intros Hempty. apply (f_equal String.length) in Hempty.
      rewrite !length_append in Hempty. cbn in Hempty. lia.
    - rewrite lastIsSpace_append by discriminate. reflexivity. }
  exists (trimEnd rest). split; [exact Htext|].
  unfold renderChunk. cbn [speaker text]. rewrite Htext, Hlabel.
  change (truthy ("Speaker " +:+ digits)) with true. cbn match.
  rewrite !append_assoc. reflexivity.
Qed.

Lemma labelled_fragment_repeats_label_witness :
  let env := {| rejects := fun _ => false; generatedId := "s1"; generatedTitle := "t";
                apiKey := true; transcription := Replied "Speaker 1: hello  ";
                summarize := fun _ => None |} in
  exists rest : string,
    text (transcribeAudioChunk env 0) = "Speaker 1" +:+ ":" +:+ rest
    /\ renderChunk (transcribeAudioChunk env 0)
       = "Speaker 1" +:+ ": " +:+ "Speaker 1" +:+ ":" +:+ rest.
Proof.
  intros env.
  exact (labelled_fragment_repeats_label env 0 "Speaker 1" eq_refl).
Defined.




End Gemini.

(** * Further properties of the socket handlers *)

Section HandlerRuns.
Variables (env : Env) (w : World).

Ltac answers :=
  repeat first
    [ rewrite lookup_insert_eq
    | match goal with
      | H : sessions (db w) !! _ = _ |- _ => rewrite H
      | H : sessionProcessors w !! _ = _ |- _ => rewrite H
      | |- context [rejects ?e ?c] => destruct (rejects e c) eqn:?
      | |- context [apiKey ?e] => destruct (apiKey e) eqn:?
      | |- context [summarize ?e ?t] => destruct (summarize e t) eqn:?
      end ]; cbn.

(** X9. No handler lets an exception escape: whatever the collaborators
    answer, whatever the payload and the state, the handler returns. *)
Theorem handlers_never_throw (ev : Inbound) : (handle env ev w).1 = Returned tt.
Proof.
  destruct ev as [data|data|sid|sid|data]; cbn [handle].
  - run_handler. destruct (sessions (db w) !! generatedId env) eqn:Hr;
      cbn; repeat answers; reflexivity.
  - run_handler. cbn.
    destruct (sessionProcessors w !! chunk_sessionId data) eqn:Hp;
      destruct (sessions (db w) !! chunk_sessionId data) eqn:Hr;
      cbn; repeat answers; reflexivity.
  - apply pause_recording_registry.
  - apply resume_recording_registry.
  - run_handler. cbn.
    destruct (sessions (db w) !! stop_sessionId data) eqn:Hr;
      repeat answers; reflexivity.
Qed.

(** What one handler run adds to the event log. *)
Lemma handle_emits (ev : Inbound) :
  exists e es,
    emitted (handle env ev w).2 = emitted w ++ e :: es
    /\ Forall wellScoped (e :: es).
Proof.
  destruct ev as [data|data|sid|sid|data]; cbn [handle].
  - run_handler. destruct (sessions (db w) !! generatedId env) eqn:Hr;
      cbn; repeat answers; rewrite <- ?app_assoc;
      do 2 eexists; (split; [reflexivity | repeat constructor]).
  - run_handler. cbn.
    destruct (sessionProcessors w !! chunk_sessionId data) eqn:Hp;
      destruct (sessions (db w) !! chunk_sessionId data) eqn:Hr;
      cbn; repeat answers; rewrite <- ?app_assoc;
      do 2 eexists; (split; [reflexivity | repeat constructor]).
  - run_handler. destruct (sessions (db w) !! sid) eqn:Hr;
      cbn; repeat answers; rewrite <- ?app_assoc;
      do 2 eexists; (split; [reflexivity | repeat constructor]).
  - run_handler. destruct (sessions (db w) !! sid) eqn:Hr;
      cbn; repeat answers; rewrite <- ?app_assoc;
      do 2 eexists; (split; [reflexivity | repeat constructor]).
  - run_handler. cbn.
    destruct (sessions (db w) !! stop_sessionId data) eqn:Hr;
      repeat answers; rewrite <- ?app_assoc;
      do 2 eexists; (split; [reflexivity | repeat constructor]).
Qed.

End HandlerRuns.

Lemma serve_app (evs1 evs2 : list (Env * Inbound)) (w : World) :
  serve (evs1 ++ evs2) w = serve evs2 (serve evs1 w).
Proof.
  revert w. induction evs1 as [|[env ev] evs1 IH]; intros w; [reflexivity|].
  cbn [app serve]. apply IH.
Qed.

Lemma serve_wellScoped (evs : list (Env * Inbound)) (w : World) :
  Forall wellScoped (emitted w) -> Forall wellScoped (emitted (serve evs w)).
Proof.
  revert w. induction evs as [|[env ev] evs IH]; intros w Hw; [exact Hw|].
  cbn [serve]. apply IH.
  destruct (handle_emits env w ev) as (e & es & -> & Hes).
  apply Forall_app. split; assumption.
Qed.

(** X10. Every event the server ever emits is scoped as its kind demands:
    [error] and [session-created] reach only the calling socket, and
    [transcription-update], [status-update] and [processing-complete] are
    sent to the room of the session named in their payload. *)
Theorem events_are_well_scoped (evs : list (Env * Inbound)) :
  Forall wellScoped (emitted (serve evs initialWorld)).
Proof. apply serve_wellScoped. constructor. Qed.


(** ** Invariants of the registry *)

Section MapFacts.
Context {A B : Type}.
Implicit Types (P : gmap string A) (T : gmap string B).

Lemma paired_insert P T (i : string) (a : A) (b : B) :
  paired P T -> paired (<[i := a]> P) (<[i := b]> T).
Proof.
  intros H j. destruct (decide (i = j)) as [->|Hne].
  - rewrite !lookup_insert_eq. split; discriminate.
  - rewrite !lookup_insert_ne by exact Hne. apply H.
Qed.

Lemma paired_delete P T (i : string) :
  paired P T -> paired (delete i P) (delete i T).
Proof.
  intros H j. destruct (decide (i = j)) as [->|Hne].
  - rewrite !lookup_delete_eq. split; reflexivity.
  - rewrite !lookup_delete_ne by exact Hne. apply H.
Qed.

Lemma within_insert_r P T (i : string) (b : B) :
  within P T -> within P (<[i := b]> T).
Proof.
  intros H j Hj. destruct (decide (i = j)) as [->|Hne].
  - rewrite lookup_insert_eq. eauto.
  - rewrite lookup_insert_ne by exact Hne. apply H, Hj.
Qed.

Lemma within_insert_both P T (i : string) (a : A) (b : B) :
  within P T -> within (<[i := a]> P) (<[i := b]> T).
Proof.
  intros H j. destruct (decide (i = j)) as [->|Hne].
  - rewrite !lookup_insert_eq. eauto.
  - rewrite !lookup_insert_ne by exact Hne. apply H.
Qed.

Lemma within_insert_known P T (i : string) (a a' : A) :
  P !! i = Some a -> within P T -> within (<[i := a']> P) T.
Proof.
  intros Hi H j. destruct (decide (i = j)) as [->|Hne].
  - intros _. apply H. rewrite Hi. eauto.
  - rewrite lookup_insert_ne by exact Hne. apply H.
Qed.

Lemma within_delete P T (i : string) : within P T -> within (delete i P) T.
Proof.
  intros H j. destruct (decide (i = j)) as [->|Hne].
  - rewrite lookup_delete_eq. intros [? ?]. discriminate.
  - rewrite lookup_delete_ne by exact Hne. apply H.
Qed.

End MapFacts.

Create HintDb registry.
#[local] Hint Resolve paired_insert paired_delete within_insert_r within_insert_both
  within_insert_known within_delete : registry.

Lemma buffers_insert (P : gmap string AudioProcessor.t) (i : string) (p : AudioProcessor.t) :
  consistent p ->
  map_Forall (fun _ q => consistent q) P ->
  map_Forall (fun _ q => consistent q) (<[i := p]> P).
Proof. intros Hp HP. apply map_Forall_insert_2; assumption. Qed.

Lemma buffers_delete (P : gmap string AudioProcessor.t) (i : string) :
  map_Forall (fun _ q => consistent q) P ->
  map_Forall (fun _ q => consistent q) (delete i P).
Proof. apply map_Forall_delete. Qed.

#[local] Hint Resolve buffers_insert buffers_delete
  AudioProcessorProofs.create_consistent : registry.

Section RegistryInvariant.
Variables (env : Env) (w : World).
Hypothesis Hinv : registryInvariant w.

Ltac answers :=
  repeat first
    [ rewrite lookup_insert_eq
    | match goal with
      | H : sessions (db w) !! _ = _ |- _ => rewrite H
      | H : sessionProcessors w !! _ = _ |- _ => rewrite H
      | |- context [rejects ?e ?c] => destruct (rejects e c) eqn:?
      | |- context [apiKey ?e] => destruct (apiKey e) eqn:?
      | |- context [summarize ?e ?t] => destruct (summarize e t) eqn:?
      end ]; cbn.

Ltac kept :=
  destruct Hinv as (Hpaired & Hwithin & Hcons);
  unfold registryInvariant, registryPaired, registryPersisted, buffersConsistent in *;
  cbn [sessionProcessors sessionTranscripts db sessions];
  split; [|split];
  eauto 6 with registry.


End RegistryInvariant.





(** ** Start, audio chunks, and what follows a stop *)

(** X13. A start creates everything or nothing.  When the record is
    created, the session gets an empty buffer and an empty accumulator, the
    record is [RECORDING], the socket joins the session's room and is told
    the identifier.  When the creation is rejected, the only effect is one
    [error] event to the calling socket. *)
Theorem start_creates_all_or_nothing (env : Env) (data : StartData) (w : World) :
  let id := generatedId env in
  let w' := (start_recording env data w).2 in
  (sessions (db w) !! id = None -> rejects env CreateSession = false ->
   sessionProcessors w' = <[id := AudioProcessor.create]> (sessionProcessors w)
   /\ sessionTranscripts w' = <[id := []]> (sessionTranscripts w)
   /\ Session.status <$> sessions (db w') !! id = Some RECORDING
   /\ joined w' = joined w ++ [id]
   /\ emitted w' = emitted w ++ [(ToSocket, SessionCreated id)])
  /\ (rejects env CreateSession = true \/ is_Some (sessions (db w) !! id) ->
      w' = afterEmit w [(ToSocket, Error "Failed to start recording")]).
Proof.
  intros id w'. subst id w'. split.
  - intros Hfresh Hok. rewrite (start_recording_success env data w Hfresh Hok).
    cbn. rewrite lookup_insert_eq. repeat split.
  - intros Hfail. run_handler.
    destruct (rejects env CreateSession); cbn; [reflexivity|].
    destruct Hfail as [?|[r Hr]]; [discriminate|]. rewrite Hr. reflexivity.
Qed.

Lemma start_creates_all_or_nothing_witness :
  sessionProcessors (start_recording (calmEnv "s1") startMic initialWorld).2 !! "s1"
  = Some AudioProcessor.create
  /\ (start_recording (calmEnv "s1") startMic startedWorld).2
     = afterEmit startedWorld [(ToSocket, Error "Failed to start recording")].
Proof.
  split.
  - destruct (proj1 (start_creates_all_or_nothing (calmEnv "s1") startMic initialWorld)
                eq_refl eq_refl) as (Hproc & _).
    rewrite Hproc. apply lookup_insert_eq.
  - apply (proj2 (start_creates_all_or_nothing (calmEnv "s1") startMic startedWorld)).
    right. eexists. reflexivity.
Defined.



Lemma withStatus_back (r : Session.t) :
  Session.status r = RECORDING -> withStatus RECORDING (withStatus PAUSED r) = r.
Proof. destruct r as [u a st t d]. cbn. intros ->. reflexivity. Qed.

(** X15. Pause followed by resume is a round trip: for a session that is
    [RECORDING], when both updates are answered, the state afterwards is
    the state before, buffers, accumulators and records included, with two
    [status-update] events added to the log. *)
Theorem pause_then_resume_restores
    (env1 env2 : Env) (id : string) (w : World) (r : Session.t) :
  sessions (db w) !! id = Some r ->
  Session.status r = RECORDING ->
  rejects env1 UpdatePaused = false ->
  rejects env2 UpdateRecording = false ->
  (resume_recording env2 id (pause_recording env1 id w).2).2
  = afterEmit w [ (ToRoom id, StatusUpdate id PAUSED);
                  (ToRoom id, StatusUpdate id RECORDING) ].
Proof.
  intros Hr Hst H1 H2.
  rewrite (pause_recording_known env1 id w r Hr H1). cbn [snd].
  rewrite (resume_recording_known env2 id _ (withStatus PAUSED r))
    by (try exact H2; cbn; apply lookup_insert_eq).
  cbn [snd]. unfold afterEmit, withSession. cbn.
  rewrite insert_insert_eq, (withStatus_back r Hst), (insert_id _ _ _ Hr), <- app_assoc.
  destruct w as [P T [S tr su] j e]. reflexivity.
Qed.

Lemma pause_then_resume_restores_witness :
  (resume_recording (calmEnv "s1") "s1"
     (pause_recording (calmEnv "s1") "s1" streamingWorld).2).2
  = afterEmit streamingWorld [ (ToRoom "s1", StatusUpdate "s1" PAUSED);
                               (ToRoom "s1", StatusUpdate "s1" RECORDING) ].
Proof.
  exact (pause_then_resume_restores (calmEnv "s1") (calmEnv "s1") "s1" streamingWorld
           {| Session.userId := "demo-user-id";
              Session.audioSource := "microphone";
              Session.status := RECORDING;
              Session.title := "Recording";
              Session.duration := Some 5 |}
           eq_refl eq_refl eq_refl eq_refl).
Defined.

(** X16. A stop that fails after the status was advanced leaves the session
    in the registry: when saving the transcript or the final update is
    rejected, buffer and accumulator stay where they are, the caller gets
    [error] after the room got [status-update] with [PROCESSING], no
    [processing-complete] is sent, and the record ends [ERROR], or stays
    [PROCESSING] when that update is rejected too. *)
Theorem failed_stop_keeps_registry_entry
    (env : Env) (data : StopData) (w : World) (r : Session.t) :
  let id := stop_sessionId data in
  let w' := (stop_recording env data w).2 in
  sessions (db w) !! id = Some r ->
  rejects env UpdateProcessing = false ->
  rejects env CreateTranscript = true \/ rejects env UpdateCompleted = true ->
  sessionProcessors w' = sessionProcessors w
  /\ sessionTranscripts w' = sessionTranscripts w
  /\ emitted w' = emitted w ++ [ (ToRoom id, StatusUpdate id PROCESSING);
                                 (ToSocket, Error "Failed to stop recording") ]
  /\ Session.status <$> sessions (db w') !! id
     = Some (if rejects env UpdateError then PROCESSING else ERROR).
Proof.
  intros id w' Hr Hproc Hfail. subst id w'.
  run_handler. rewrite Hproc. cbn. rewrite Hr. cbn.
  destruct (rejects env CreateTranscript) eqn:Ht; cbn.
  - destruct (rejects env UpdateError); cbn; rewrite ?lookup_insert_eq; cbn;
      rewrite ?lookup_insert_eq, <- ?app_assoc; repeat split.
  - destruct Hfail as [?|Hc]; [discriminate|]. rewrite Hc.
    destruct (apiKey env); cbn;
      [destruct (summarize env _); cbn|];
      try (destruct (rejects env CreateSummary); cbn);
      destruct (rejects env UpdateError); cbn; rewrite ?lookup_insert_eq; cbn;
      rewrite ?lookup_insert_eq, <- ?app_assoc; repeat split.
Qed.

Lemma failed_stop_keeps_registry_entry_witness :
  let env := {| rejects := fun c => match c with CreateTranscript => true | _ => false end;
                generatedId := "s1"; generatedTitle := "Recording"; apiKey := false;
                transcription := Failed None; summarize := fun _ => None |} in
  let w' := (stop_recording env (stopOf "s1" None None) streamingWorld).2 in
  sessionProcessors w' = sessionProcessors streamingWorld
  /\ Session.status <$> sessions (db w') !! "s1" = Some ERROR.
Proof.
  intros env w'.
  destruct (failed_stop_keeps_registry_entry env (stopOf "s1" None None) streamingWorld
              {| Session.userId := "demo-user-id";
                 Session.audioSource := "microphone";
                 Session.status := RECORDING;
                 Session.title := "Recording";
                 Session.duration := Some 5 |}
              eq_refl eq_refl (or_introl eq_refl)) as (Hproc & _ & _ & Hstatus).
  split; [exact Hproc | exact Hstatus].
Defined.

(** X17. After a stop that ran to its end the session is gone from the
    registry: an audio chunk for it is answered with "Session not found"
    and changes nothing. *)
Theorem audio_after_stop_is_refused
    (env env' : Env) (data : StopData) (late : ChunkData) (w : World) (r : Session.t) :
  sessions (db w) !! stop_sessionId data = Some r ->
  stopPersists env ->
  chunk_sessionId late = stop_sessionId data ->
  let stopped := (stop_recording env data w).2 in
  audio_chunk env' late stopped
  = (Returned tt, afterEmit stopped [(ToSocket, Error "Session not found")]).
Proof.
  intros Hr Hok Hid stopped. apply audio_chunk_unknown.
  subst stopped. rewrite (stop_recording_success env data w r Hr Hok).
  cbn [snd sessionProcessors]. rewrite Hid. apply lookup_delete_eq.
Qed.

Lemma audio_after_stop_is_refused_witness :
  let late := {| chunk_sessionId := "s1"; chunk := [x01]; chunk_timestamp := 7000 |} in
  audio_chunk (calmEnv "s1") late finishedWorld
  = (Returned tt, afterEmit finishedWorld [(ToSocket, Error "Session not found")]).
Proof.
  intros late.
  exact (audio_after_stop_is_refused (calmEnv "s1") (calmEnv "s1")
           (stopOf "s1" None None) late startedWorld
           {| Session.userId := "demo-user-id";
              Session.audioSource := "microphone";
              Session.status := RECORDING;
              Session.title := "Recording";
              Session.duration := None |}
           eq_refl (conj eq_refl (conj eq_refl eq_refl)) eq_refl).
Defined.

(** ** Isolation and durability *)

Section Isolation.
Variables (env : Env) (w : World).

Ltac answers :=
  repeat first
    [ rewrite lookup_insert_eq
    | match goal with
      | H : sessions (db w) !! _ = _ |- _ => rewrite H
      | H : sessionProcessors w !! _ = _ |- _ => rewrite H
      | |- context [rejects ?e ?c] => destruct (rejects e c) eqn:?
      | |- context [apiKey ?e] => destruct (apiKey e) eqn:?
      | |- context [summarize ?e ?t] => destruct (summarize e t) eqn:?
      end ]; cbn.

Ltac untouched :=
  repeat split; rewrite ?lookup_insert_ne, ?lookup_delete_ne by congruence; reflexivity.

(** X18. A handler run is confined to its session: the buffer, the
    accumulator and the persisted record of every other session are after
    the run what they were before, whatever the collaborators answered. *)
Theorem other_sessions_are_untouched (ev : Inbound) (other : string) :
  other <> touched env ev ->
  let w' := (handle env ev w).2 in
  sessionProcessors w' !! other = sessionProcessors w !! other
  /\ sessionTranscripts w' !! other = sessionTranscripts w !! other
  /\ sessions (db w') !! other = sessions (db w) !! other.
Proof.
  intros Hother w'. subst w'. unfold touched in Hother.
  destruct ev as [data|data|sid|sid|data]; cbn [handle]; cbn in Hother.
  - run_handler. destruct (sessions (db w) !! generatedId env) eqn:Hr;
      cbn; repeat answers; untouched.
  - run_handler. cbn.
    destruct (sessionProcessors w !! chunk_sessionId data) eqn:Hp;
      destruct (sessions (db w) !! chunk_sessionId data) eqn:Hr;
      cbn; repeat answers; untouched.
  - run_handler. destruct (sessions (db w) !! sid) eqn:Hr; cbn; repeat answers; untouched.
  - run_handler. destruct (sessions (db w) !! sid) eqn:Hr; cbn; repeat answers; untouched.
  - run_handler. cbn.
    destruct (sessions (db w) !! stop_sessionId data) eqn:Hr; repeat answers; untouched.
Qed.

Ltac durable i ID Hi Hr :=
  split; [first [reflexivity | apply prefix_app_r; reflexivity]|];
  split; [first [reflexivity | apply prefix_app_r; reflexivity]|];
  intros i r0 Hi;
  destruct (decide (i = ID)) as [->|Hne];
  [ rewrite Hr in Hi; simplify_eq; rewrite ?lookup_insert_eq, ?Hr
  | rewrite ?lookup_insert_ne by congruence; rewrite Hi ];
  eexists; (split; [reflexivity | cbn; auto]).

(** X19. Nothing persisted is lost by a handler run: transcript rows and
    summary rows are only ever appended, and a session record that exists
    keeps existing with the same owner, audio source and title. *)
Theorem persisted_data_is_kept (ev : Inbound) :
  let w' := (handle env ev w).2 in
  transcripts (db w) `prefix_of` transcripts (db w')
  /\ summaries (db w) `prefix_of` summaries (db w')
  /\ (forall (id : string) (r : Session.t),
        sessions (db w) !! id = Some r ->
        exists r' : Session.t,
          sessions (db w') !! id = Some r'
          /\ Session.userId r' = Session.userId r
          /\ Session.audioSource r' = Session.audioSource r
          /\ Session.title r' = Session.title r).
Proof.
  intros w'. subst w'.
  destruct ev as [data|data|sid|sid|data]; cbn [handle].
  - run_handler. destruct (sessions (db w) !! generatedId env) eqn:Hr;
      cbn; repeat answers; durable i (generatedId env) Hi Hr.
  - run_handler. cbn.
    destruct (sessionProcessors w !! chunk_sessionId data) eqn:Hp;
      destruct (sessions (db w) !! chunk_sessionId data) eqn:Hr;
      cbn; repeat answers; durable i (chunk_sessionId data) Hi Hr.
  - run_handler. destruct (sessions (db w) !! sid) eqn:Hr;
      cbn; repeat answers; durable i sid Hi Hr.
  - run_handler. destruct (sessions (db w) !! sid) eqn:Hr;
      cbn; repeat answers; durable i sid Hi Hr.
  - run_handler. cbn.
    destruct (sessions (db w) !! stop_sessionId data) eqn:Hr;
      repeat answers; rewrite <- ?app_assoc; durable i (stop_sessionId data) Hi Hr.
Qed.

End Isolation.

Lemma other_sessions_are_untouched_witness :
  let w' := (handle (calmEnv "s2") (StopRecording (stopOf "s2" None None)) streamingWorld).2 in
  sessionProcessors w' !! "s1" = sessionProcessors streamingWorld !! "s1"
  /\ sessionTranscripts w' !! "s1" = sessionTranscripts streamingWorld !! "s1"
  /\ sessions (db w') !! "s1" = sessions (db streamingWorld) !! "s1".
Proof.
  apply (other_sessions_are_untouched (calmEnv "s2") streamingWorld
           (StopRecording (stopOf "s2" None None)) "s1").
  cbn. discriminate.
Defined.

Lemma persisted_data_is_kept_witness :
  exists r' : Session.t,
    sessions (db (handle (calmEnv "s1") (PauseRecording "s1") finishedWorld).2) !! "s1"
    = Some r'
    /\ Session.userId r' = "demo-user-id"
    /\ Session.audioSource r' = "microphone"
    /\ Session.title r' = "Recording".
Proof.
  destruct (persisted_data_is_kept (calmEnv "s1") finishedWorld (PauseRecording "s1"))
    as (_ & _ & Hkeep).
  exact (Hkeep "s1" {| Session.userId := "demo-user-id";
                       Session.audioSource := "microphone";
                       Session.status := COMPLETED;
                       Session.title := "Recording";
                       Session.duration := None |} eq_refl).
Defined.

(** ** The client's transcript as fallback *)

Lemma includes_join (n sep : string) (parts : list string) :
  Exists (fun part => includes n part = true) parts ->
  includes n (join sep parts) = true.
Proof.
  induction 1 as [part rest Hpart | part rest Hex IH].
  - destruct rest; [exact Hpart | apply includes_append_l, Hpart].
  - destruct rest as [|next rest]; [inversion Hex|].
    change (join sep (part :: next :: rest))
      with (part +:+ sep +:+ join sep (next :: rest)).
    apply includes_append_r, includes_append_r, IH.
Qed.

Lemma includes_flatten (n : string) (chunks : list TranscriptChunk) :
  Exists (fun c => includes n (text c) = true) chunks ->
  includes n (flatten chunks) = true.
Proof.
  intros Hex. unfold flatten. apply includes_join.
  induction Hex as [c rest Hc | c rest _ IH]; cbn [fmap list_fmap].
  - apply Exists_cons_hd. unfold renderChunk. apply includes_append_r, Hc.
  - apply Exists_cons_tl, IH.
Qed.

Lemma mock_text_has_marker (env : Env) (ts : Z) :
  apiKey env = false ->
  includes "Mock transcription" (text (transcribeAudioChunk env ts)) = true.
Proof. intros Hkey. unfold transcribeAudioChunk. rewrite Hkey. reflexivity. Qed.

(** X20. Without an API key the transcription collaborator returns
    placeholders that carry the words "Mock transcription".  As soon as the
    accumulator of a session holds one of them, a stop with a client
    transcript that is not empty saves the client's transcript, verbatim,
    as the content of the transcript row. *)
Theorem client_transcript_replaces_mock
    (env : Env) (data : StopData) (w : World) (r : Session.t)
    (chunks : list TranscriptChunk) (ct : string) :
  let id := stop_sessionId data in
  sessions (db w) !! id = Some r ->
  rejects env UpdateProcessing = false ->
  rejects env CreateTranscript = false ->
  sessionTranscripts w !! id = Some chunks ->
  (exists (env0 : Env) (ts : Z),
      apiKey env0 = false /\ transcribeAudioChunk env0 ts ∈ chunks) ->
  clientTranscript data = Some ct ->
  ct <> "" ->
  transcripts (db (stop_recording env data w).2)
  = transcripts (db w)
    ++ [ {| Transcript.sessionId := id;
            Transcript.content := ct;
            Transcript.chunks := chunks |} ].
Proof.
  intros id Hr Hp Ht Hacc (env0 & ts & Hkey & Hin) Hct Hne. subst id.
  rewrite (stop_recording_transcript env data w r Hr Hp Ht).
  unfold transcriptRow, fullTranscriptOf. rewrite Hacc, Hct.
  change (default [] (Some chunks)) with chunks.
  assert (Hmarker : includes "Mock transcription" (flatten chunks) = true).
  { apply includes_flatten, Exists_exists.
    exists (transcribeAudioChunk env0 ts). split; [exact Hin|].
    apply mock_text_has_marker, Hkey. }
  unfold chooseTranscript, transcriptContent. rewrite Hmarker, orb_true_r.
  destruct ct as [|c ct]; [congruence | reflexivity].
Qed.

Lemma client_transcript_replaces_mock_witness :
  transcripts (db (stop_recording (calmEnv "s1")
                     (stopOf "s1" (Some "what was said") (Some 5)) streamingWorld).2)
  = [ {| Transcript.sessionId := "s1";
         Transcript.content := "what was said";
         Transcript.chunks := [transcribeAudioChunk (calmEnv "s1") 5000] |} ].
Proof.
  apply (client_transcript_replaces_mock (calmEnv "s1")
           (stopOf "s1" (Some "what was said") (Some 5)) streamingWorld
           {| Session.userId := "demo-user-id";
              Session.audioSource := "microphone";
              Session.status := RECORDING;
              Session.title := "Recording";
              Session.duration := Some 5 |}
           [transcribeAudioChunk (calmEnv "s1") 5000] "what was said"
           eq_refl eq_refl eq_refl eq_refl).
  - exists (calmEnv "s1"), 5000. split; [reflexivity | apply list_elem_of_here].
  - reflexivity.
  - discriminate.
Defined.

Lemma truthy_append_r (a b : string) : truthy b = true -> truthy (a +:+ b) = true.
Proof. destruct a; [intros H; exact H | reflexivity]. Qed.

(** X21. The stop button never sends an empty client transcript: it sends
    none when speech recognition produced nothing (no fragment, or a single
    fragment with empty text) and the joined texts otherwise; and what it
    sends is what the server saves when the server has no text of its own. *)
Theorem client_stop_transcript_is_never_empty (speech : list TranscriptChunk) :
  clientStopTranscript speech <> Some ""
  /\ (clientStopTranscript speech = None
      <-> speech = [] \/ exists c, speech = [c] /\ text c = "")
  /\ (forall sent : string,
        clientStopTranscript speech = Some sent ->
        sent = join newline (text <$> speech)
        /\ transcriptContent (chooseTranscript (Some sent) "") = sent).
Proof.
  unfold clientStopTranscript. split; [|split].
  - destruct (truthy (join newline (text <$> speech))) eqn:Hfull; [|discriminate].
    intros [= Hempty]. rewrite Hempty in Hfull. discriminate.
  - destruct speech as [|c [|c' rest]]; cbn [fmap list_fmap join].
    + split; [auto | reflexivity].
    + destruct (text c) eqn:Htext; cbn [truthy].
      * split; [intros _; right; eauto | reflexivity].
      * split; [discriminate|].
        intros [?|(c0 & [= <-] & Hc0)]; [discriminate | congruence].
    + rewrite truthy_append_r by reflexivity.
      split; [discriminate|]. intros [?|(c0 & ? & _)]; discriminate.
  - intros sent. destruct (truthy (join newline (text <$> speech))) eqn:Hfull;
      [|discriminate].
    intros [= <-]. split; [reflexivity|].
    unfold chooseTranscript, transcriptContent. cbn [truthy negb orb].
    rewrite Hfull. cbn [andb]. rewrite Hfull. reflexivity.
Qed.

Lemma client_stop_transcript_is_never_empty_witness :
  clientStopTranscript [ {| timestamp := 10; text := "hello"; speaker := None |};
                         {| timestamp := 20; text := "there"; speaker := None |} ]
  = Some ("hello" +:+ newline +:+ "there")
  /\ transcriptContent (chooseTranscript (Some ("hello" +:+ newline +:+ "there")) "")
     = "hello" +:+ newline +:+ "there".
Proof.
  split; [reflexivity|].
  exact (proj2 (proj2 (proj2 (client_stop_transcript_is_never_empty
           [ {| timestamp := 10; text := "hello"; speaker := None |};
             {| timestamp := 20; text := "there"; speaker := None |} ]))
           ("hello" +:+ newline +:+ "there") eq_refl)).
Defined.

(** ** Flattening step by step, and the summary of a stop *)

Lemma join_snoc (sep : string) (parts : list string) (x : string) :
  parts <> [] -> join sep (parts ++ [x]) = join sep parts +:+ sep +:+ x.
Proof.
  induction parts as [|p parts IH]; [congruence|]. intros _.
  destruct parts as [|q parts]; [reflexivity|].
  change (join sep ((p :: q :: parts) ++ [x]))
    with (p +:+ sep +:+ join sep ((q :: parts) ++ [x])).
  rewrite IH by discriminate.
  change (join sep (p :: q :: parts)) with (p +:+ sep +:+ join sep (q :: parts)).
  rewrite !append_assoc. reflexivity.
Qed.

(** X22. The flattened transcript grows with the accumulator: an empty
    accumulator gives the empty text, a single fragment gives its
    rendering, and a fragment appended to a non-empty accumulator adds a
    newline and its rendering at the end of the text. *)
Theorem flatten_grows_by_appending (chunks : list TranscriptChunk) (c : TranscriptChunk) :
  flatten [] = ""
  /\ flatten [c] = renderChunk c
  /\ (chunks <> [] ->
      flatten (chunks ++ [c]) = flatten chunks +:+ newline +:+ renderChunk c).
Proof.
  split; [reflexivity|]. split; [reflexivity|].
  intros Hne. unfold flatten. rewrite fmap_app. cbn [fmap list_fmap].
  apply join_snoc. destruct chunks; [congruence | discriminate].
Qed.

Lemma flatten_grows_by_appending_witness :
  let a := {| timestamp := 0; text := "one"; speaker := None |} in
  let b := {| timestamp := 1; text := "two"; speaker := Some "Speaker 2" |} in
  flatten ([a] ++ [b]) = flatten [a] +:+ newline +:+ renderChunk b.
Proof.
  intros a b.
  exact (proj2 (proj2 (flatten_grows_by_appending [a] b)) ltac:(discriminate)).
Defined.

(** X23. A stop that runs to its end and whose summary is produced and
    saved appends exactly one summary row for the session.  The summary is
    made from the transcript text the handler chose (the client's or the
    flattened one, which may be empty), not from the content of the
    transcript row: for an empty text the row says "No transcript
    available" while the summarizer was given the empty string. *)
Theorem stop_saves_one_summary
    (env : Env) (data : StopData) (w : World) (r : Session.t) (s : MeetingSummary) :
  let id := stop_sessionId data in
  let w' := (stop_recording env data w).2 in
  sessions (db w) !! id = Some r ->
  stopPersists env ->
  rejects env CreateSummary = false ->
  summaryOutcome env (fullTranscriptOf w data) = Some s ->
  summaries (db w') = summaries (db w) ++ [ {| Summary.sessionId := id; Summary.body := s |} ]
  /\ (apiKey env = false -> s = mockSummary)
  /\ (default [] (sessionTranscripts w !! id) = [] -> clientTranscript data = None ->
      fullTranscriptOf w data = ""
      /\ Transcript.content <$> last (transcripts (db w')) = Some "No transcript available").
Proof.
  intros id w' Hr Hok Hsave Hsum. subst id w'.
  rewrite (stop_recording_success env data w r Hr Hok).
  cbn [snd db summaries transcripts]. split; [|split].
  - unfold savedSummary. rewrite Hsum, Hsave. reflexivity.
  - intros Hkey. unfold summaryOutcome in Hsum. rewrite Hkey in Hsum.
    cbn in Hsum. congruence.
  - intros Hacc Hct.
    assert (Hfull : fullTranscriptOf w data = "")
      by (unfold fullTranscriptOf; rewrite Hacc, Hct; reflexivity).
    split; [exact Hfull|].
    rewrite last_snoc. unfold transcriptRow. rewrite Hfull. reflexivity.
Qed.

Lemma stop_saves_one_summary_witness :
  let w' := (stop_recording (calmEnv "s1") (stopOf "s1" None None) startedWorld).2 in
  summaries (db w') = [ {| Summary.sessionId := "s1"; Summary.body := mockSummary |} ]
  /\ Transcript.content <$> last (transcripts (db w')) = Some "No transcript available".
Proof.
  intros w'.
  destruct (stop_saves_one_summary (calmEnv "s1") (stopOf "s1" None None) startedWorld
              {| Session.userId := "demo-user-id";
                 Session.audioSource := "microphone";
                 Session.status := RECORDING;
                 Session.title := "Recording";
                 Session.duration := None |}
              mockSummary eq_refl (conj eq_refl (conj eq_refl eq_refl)) eq_refl eq_refl)
    as (Hrow & _ & Hempty).
  split; [exact Hrow|].
  exact (proj2 (Hempty eq_refl eq_refl)).
Defined.
